(** * A model of [src/app/page.tsx]: the multi-video player page

    The component [VideoPlayerPage] is a React function component.  Its
    behaviour is the behaviour of its hooks, so the model is an explicit state
    machine over

    - the four [useState] cells ([videos], [globalVolume], [isMuted],
      [isPlaying]);
    - the [useRef] cell [videoRefs], a JavaScript [Map] from entry id to a
      mounted [<video>] element (kept in insertion order, as [Map.forEach]
      visits it);
    - the mounted [<video>] children of the grid and the DOM objects they
      denote (a heap of elements: the [Map] holds references, not copies);
    - the calls the component makes to its environment
      ([URL.revokeObjectURL], [video.pause()], [video.play()],
      [console.error]), recorded in order in a trace.

    Every user event runs the event handler and then, when a state cell
    changed, one render and commit.  The commit is modelled with the order
    React uses: old ref callbacks are called with [null], the keyed children
    are reconciled, the new ref callbacks are called with their element, the
    clean-up of every effect whose dependency changed runs, and then the
    effects whose dependency changed run.  Development-only double invocation
    (strict mode) is not modelled. *)

From Stdlib Require Import Floats.
From stdpp Require Import base option list strings pretty.

(** ** Data *)

(** An element of the [videos] state: [{ id: string; url: string }]. *)
Record Video := mkVideo { id : string; url : string }.

(** A dropped [File]; [type] is its MIME type. *)
Record File := mkFile { name : string; type : string }.

(** The part of an [HTMLVideoElement] the component reads or writes. *)
Record HTMLVideoElement := mkElement {
  src : string;
  volume : float;
  muted : bool }.

(** Calls to the environment, in the order they are made.  Elements are named
    by their reference (their index in the heap). *)
Inductive Call :=
  | RevokeObjectURL (u : string)
  | Pause (e : nat)
  | Play (e : nat)
  | ConsoleError (e : nat).

Global Instance Video_eq_dec : EqDecision Video.
Proof. solve_decision. Defined.
Global Instance Call_eq_dec : EqDecision Call.
Proof. solve_decision. Defined.

(** The state of one mounted [VideoPlayerPage]. *)
Record App := mkApp {
  videos : list Video;                (* useState([]) *)
  globalVolume : float;               (* useState(0.5) *)
  isMuted : bool;                     (* useState(false) *)
  isPlaying : bool;                   (* useState(true) *)
  videoRefs : list (string * nat);    (* useRef(new Map()), insertion order *)
  mounted : list (string * nat);      (* rendered <video> children: key, element *)
  heap : list HTMLVideoElement;       (* the DOM objects, by reference *)
  created : nat;                      (* entries created so far *)
  trace : list Call }.

(** The four state setters, and the updates of the other fields. *)
Definition setVideos (x : list Video) (st : App) : App :=
  mkApp x (globalVolume st) (isMuted st) (isPlaying st) (videoRefs st)
        (mounted st) (heap st) (created st) (trace st).
Definition setGlobalVolume (x : float) (st : App) : App :=
  mkApp (videos st) x (isMuted st) (isPlaying st) (videoRefs st)
        (mounted st) (heap st) (created st) (trace st).
Definition setIsMuted (x : bool) (st : App) : App :=
  mkApp (videos st) (globalVolume st) x (isPlaying st) (videoRefs st)
        (mounted st) (heap st) (created st) (trace st).
Definition setIsPlaying (x : bool) (st : App) : App :=
  mkApp (videos st) (globalVolume st) (isMuted st) x (videoRefs st)
        (mounted st) (heap st) (created st) (trace st).
Definition set_videoRefs (x : list (string * nat)) (st : App) : App :=
  mkApp (videos st) (globalVolume st) (isMuted st) (isPlaying st) x
        (mounted st) (heap st) (created st) (trace st).
Definition set_mounted (x : list (string * nat)) (st : App) : App :=
  mkApp (videos st) (globalVolume st) (isMuted st) (isPlaying st) (videoRefs st)
        x (heap st) (created st) (trace st).
Definition set_heap (x : list HTMLVideoElement) (st : App) : App :=
  mkApp (videos st) (globalVolume st) (isMuted st) (isPlaying st) (videoRefs st)
        (mounted st) x (created st) (trace st).
Definition set_created (x : nat) (st : App) : App :=
  mkApp (videos st) (globalVolume st) (isMuted st) (isPlaying st) (videoRefs st)
        (mounted st) (heap st) x (trace st).
Definition call (c : Call) (st : App) : App :=
  mkApp (videos st) (globalVolume st) (isMuted st) (isPlaying st) (videoRefs st)
        (mounted st) (heap st) (created st) (trace st ++ [c]).

(** ** The JavaScript [Map] held by [videoRefs] *)

(** [Map.prototype.delete]. *)
Definition Map_delete (k : string) (m : list (string * nat)) : list (string * nat) :=
  filter (λ p, p.1 ≠ k) m.

(** [Map.prototype.set]: an existing key keeps its place, a new key goes last. *)
Fixpoint Map_set (k : string) (e : nat) (m : list (string * nat)) : list (string * nat) :=
  match m with
  | [] => [(k, e)]
  | p :: m' => if decide (p.1 = k) then (k, e) :: m' else p :: Map_set k e m'
  end.

(** [forEach] with a callback that may throw: the first exception ends the
    loop and propagates ([None]). *)
Fixpoint forEach {A} (l : list A) (f : A → App → option App) (st : App) : option App :=
  match l with
  | [] => Some st
  | x :: l' => st' ← f x st; forEach l' f st'
  end.

(** ** The DOM setters *)

(** [video.volume = v] raises (IndexSizeError, or TypeError for a non-finite
    number) unless [0 <= v <= 1]. *)
Definition valid_volume (v : float) : bool :=
  PrimFloat.leb 0 v && PrimFloat.leb v 1.

Definition write_volume (e : nat) (v : float) (st : App) : option App :=
  if valid_volume v
  then Some (set_heap (alter (λ el, mkElement (src el) v (muted el)) e (heap st)) st)
  else None.

Definition write_muted (e : nat) (m : bool) (st : App) : App :=
  set_heap (alter (λ el, mkElement (src el) (volume el) m) e (heap st)) st.

Definition write_src (e : nat) (u : string) (h : list HTMLVideoElement) : list HTMLVideoElement :=
  alter (λ el, mkElement u (volume el) (muted el)) e h.

(** A freshly created [<video src=...>]: default volume 1, not muted. *)
Definition new_element (u : string) : HTMLVideoElement := mkElement u 1%float false.

(** ** Hooks *)

(** First render: the initial value of every state cell. *)
Definition initial_videos : list Video := [].

Definition mount : App :=
  mkApp initial_videos 0.5%float false true [] [] [] 0 [].

(** [setVideoRef] (lines 76-84), [useCallback] on [[globalVolume, isMuted]]:
    the closure always holds the values of the render being committed. *)
Definition setVideoRef (element : option nat) (i : string) (st : App) : option App :=
  match element with
  | Some el =>
      st1 ← write_volume el (globalVolume st) st;
      let st2 := write_muted el (isMuted st) st1 in
      Some (set_videoRefs (Map_set i el (videoRefs st2)) st2)
  | None => Some (set_videoRefs (Map_delete i (videoRefs st)) st)
  end.

(** The effect of lines 61-66, run after a commit in which [globalVolume] or
    [isMuted] changed. *)
Definition volume_effect (st : App) : option App :=
  forEach (videoRefs st)
    (λ p s, s1 ← write_volume p.2 (globalVolume st) s;
            Some (write_muted p.2 (isMuted st) s1)) st.

(** The clean-up returned by the effect of lines 69-73.  Its dependency list
    is [[videos]], so it runs at every commit in which the [videos] array
    changed (and at unmount), over the array of the previous render. *)
Definition videos_cleanup (prev : list Video) (st : App) : App :=
  foldl (λ s video, call (RevokeObjectURL (url video)) s) st prev.

(** Reconciliation of the keyed children [videos.map(video => <div key=...>)]:
    a child whose key is already mounted keeps its element, any other gets a
    newly created one. *)
Fixpoint take_key (k : string) (old : list (string * nat)) : option (nat * list (string * nat)) :=
  match old with
  | [] => None
  | p :: old' =>
      if decide (p.1 = k) then Some (p.2, old')
      else '(e, rest) ← take_key k old'; Some (e, p :: rest)
  end.

Fixpoint reconcile (vs : list Video) (old : list (string * nat)) (h : list HTMLVideoElement)
  : list (string * nat) * list HTMLVideoElement :=
  match vs with
  | [] => ([], h)
  | v :: vs' =>
      match take_key (id v) old with
      | Some (e, rest) =>
          let r := reconcile vs' rest (write_src e (url v) h) in
          ((id v, e) :: r.1, r.2)
      | None =>
          let r := reconcile vs' old (h ++ [new_element (url v)]) in
          ((id v, length h) :: r.1, r.2)
      end
  end.

(** Whether neither dependency of the volume effect changed ([Object.is]). *)
Definition unchanged_control (prev st : App) : bool :=
  Leibniz.eqb (globalVolume prev) (globalVolume st) && eqb (isMuted prev) (isMuted st).

(** One render and commit.  [prev] is the state of the previous render,
    [st] the state the handler left.  [videos_changed] tells whether the
    [videos] cell holds a new array. *)
Definition commit (videos_changed : bool) (prev st : App) : option App :=
  st1 ← forEach (mounted st) (λ p, setVideoRef None p.1) st;
  let r := reconcile (videos st1) (mounted st1) (heap st1) in
  let st2 := set_heap r.2 (set_mounted r.1 st1) in
  st3 ← forEach r.1 (λ p, setVideoRef (Some p.2) p.1) st2;
  let st4 := if videos_changed then videos_cleanup (videos prev) st3 else st3 in
  if unchanged_control prev st
  then Some st4
  else volume_effect st4.

(** ** Event handlers *)

Section Handlers.

(** The two environment functions that create values: the [n]-th call of
    [crypto.randomUUID()] and the [n]-th call of [URL.createObjectURL(file)]
    ([handleDrop] makes one call of each per accepted file). *)
Variable randomUUID : nat → string.
Variable createObjectURL : nat → File → string.

(** [handleDrop] (lines 40-58). *)
Definition handleDrop (files : list File) (st : App) : App :=
  let videoFiles := filter (λ file, String.prefix "video/" (type file) = true) files in
  let newVideos :=
    imap (λ n file, mkVideo (randomUUID (created st + n))
                            (createObjectURL (created st + n) file)) videoFiles in
  set_created (created st + length videoFiles)
    (setVideos (videos st ++ newVideos) st).

(** [removeVideo] (lines 87-96): the updater passed to [setVideos], then
    [videoRefs.current.delete(id)]. *)
Definition removeVideo (i : string) (st : App) : App :=
  let prev := videos st in
  let st1 :=
    match List.find (λ v, bool_decide (id v = i)) prev with
    | Some video => call (RevokeObjectURL (url video)) st
    | None => st
    end in
  let st2 := setVideos (filter (λ v, id v ≠ i) prev) st1 in
  set_videoRefs (Map_delete i (videoRefs st2)) st2.

(** [clearAllVideos] (lines 99-103).  It is memoised by [useCallback] with the
    dependency list [[]], so the function that runs is the one created by the
    first render, and the [videos] it iterates over is the array of that
    render: [initial_videos]. *)
Definition clearAllVideos (st : App) : App :=
  let st1 := foldl (λ s video, call (RevokeObjectURL (url video)) s) st initial_videos in
  let st2 := setVideos [] st1 in
  set_videoRefs [] st2.

(** [toggleMute] (lines 106-108). *)
Definition toggleMute (st : App) : App := setIsMuted (negb (isMuted st)) st.

(** [togglePlayPause] (lines 111-122), [useCallback] on [[isPlaying]]. *)
Definition togglePlayPause (st : App) : App :=
  let st1 :=
    foldl (λ s p, if isPlaying st then call (Pause p.2) s else call (Play p.2) s)
          st (videoRefs st) in
  setIsPlaying (negb (isPlaying st)) st1.

(** The [catch] callbacks of the [play()] promises that were rejected; they
    run after the handler has returned. *)
Definition play_rejections (rejected : nat → bool) (table : list (string * nat)) (st : App) : App :=
  foldl (λ s p, if rejected p.2 then call (ConsoleError p.2) s else s) st table.

(** ** User events *)

Inductive Event :=
  | DropFiles (files : list File)
  | Remove (i : string)
  | ClearAll
  | ToggleMute
  | VolumeChange (v : float)             (* parseFloat(e.target.value) *)
  | TogglePlayPause (rejected : nat → bool).

(** Every setter call of the handlers stores a new value ([filter], the array
    spread and [[]] build new arrays; the two toggles negate), except
    [setGlobalVolume], which React ignores when the number is the one already
    stored ([Object.is]). *)
Definition dispatch (ev : Event) (st : App) : option App :=
  match ev with
  | DropFiles files => commit true st (handleDrop files st)
  | Remove i => commit true st (removeVideo i st)
  | ClearAll => commit true st (clearAllVideos st)
  | ToggleMute => commit false st (toggleMute st)
  | VolumeChange v =>
      if Leibniz.eqb v (globalVolume st) then Some st
      else commit false st (setGlobalVolume v st)
  | TogglePlayPause rejected =>
      st' ← commit false st (togglePlayPause st);
      Some (if isPlaying st then st' else play_rejections rejected (videoRefs st) st')
  end.

(** The events the page can deliver: the range input only yields numbers the
    DOM accepts as a volume. *)
Definition deliverable (ev : Event) : Prop :=
  match ev with VolumeChange v => valid_volume v = true | _ => True end.

Definition is_toggle (ev : Event) : bool :=
  match ev with TogglePlayPause _ => true | _ => false end.

Fixpoint run (evs : list Event) (st : App) : option App :=
  match evs with
  | [] => Some st
  | ev :: evs' => st' ← dispatch ev st; run evs' st'
  end.

(** Unmounting the page: every ref callback is called with [null] and the
    clean-up of the [videos] effect runs. *)
Definition unmount (st : App) : option App :=
  st1 ← forEach (mounted st) (λ p, setVideoRef None p.1) st;
  Some (videos_cleanup (videos st1) (set_mounted [] st1)).

(** Every id in the registry was returned by one of the calls made so far. *)
Definition issued (st : App) : Prop :=
  Forall (λ v, ∃ n, n < created st ∧ id v = randomUUID n) (videos st).

End Handlers.

(** ** Closed forms of the loops *)

Definition sync (v : float) (m : bool) (el : HTMLVideoElement) : HTMLVideoElement :=
  mkElement (src el) v m.

Definition sync_all (v : float) (m : bool) (refs : list (string * nat))
    (h : list HTMLVideoElement) : list HTMLVideoElement :=
  foldl (λ h p, alter (sync v m) p.2 h) h refs.

Definition detach_all (kids table : list (string * nat)) : list (string * nat) :=
  foldl (λ t p, Map_delete p.1 t) table kids.

Definition attach_all (kids table : list (string * nat)) : list (string * nat) :=
  foldl (λ t p, Map_set p.1 p.2 t) table kids.

Definition revocations (vs : list Video) : list Call :=
  (λ v, RevokeObjectURL (url v)) <$> vs.

(** The state a successful commit produces. *)
Definition committed (videos_changed : bool) (prev st : App) : App :=
  let r := reconcile (videos st) (mounted st) (heap st) in
  let table := attach_all r.1 (detach_all (mounted st) (videoRefs st)) in
  let h := sync_all (globalVolume st) (isMuted st) r.1 r.2 in
  mkApp (videos st) (globalVolume st) (isMuted st) (isPlaying st) table r.1
        (if unchanged_control prev st then h
         else sync_all (globalVolume st) (isMuted st) table h)
        (created st)
        (if videos_changed then trace st ++ revocations (videos prev) else trace st).

(** ** Elements in step with the control state *)

Definition in_sync (v : float) (m : bool) (h : list HTMLVideoElement) (e : nat) : Prop :=
  ∃ el, h !! e = Some el ∧ volume el = v ∧ muted el = m.

(** ** Consistent states

    What holds of the page between two events: ids are unique (they are
    UUIDs), the rendered children are the entries of [videos], the binding
    table holds exactly the rendered children, every bound element carries
    the global volume and mute flag, and the global volume is one the DOM
    accepts. *)
Record consistent (st : App) : Prop := mkConsistent {
  cons_nodup : NoDup (id <$> videos st);
  cons_keys : (mounted st).*1 = id <$> videos st;
  cons_refs : videoRefs st = mounted st;
  cons_sync : Forall (λ p, in_sync (globalVolume st) (isMuted st) (heap st) p.2)
                     (mounted st);
  cons_volume : valid_volume (globalVolume st) = true }.

(** ** Concrete environment used by the examples *)

Definition uuid_of_nat (n : nat) : string := "id" +:+ pretty n.
Definition blob_of_nat (n : nat) (f : File) : string := "blob:" +:+ pretty n.
Definition clip_a : File := mkFile "a.mp4" "video/mp4".
Definition notes : File := mkFile "b.txt" "text/plain".
Definition clip_c : File := mkFile "c.webm" "video/webm".

Abbreviation demo := (dispatch uuid_of_nat blob_of_nat).
Abbreviation demo_run := (run uuid_of_nat blob_of_nat).

(** The page after two clips and a text file were dropped on it. *)
Definition stage : App :=
  Eval vm_compute in default mount (demo_run [DropFiles [clip_a; notes; clip_c]] mount).

(** The same page after Pause All. *)
Definition paused_stage : App :=
  Eval vm_compute in
    default mount (demo_run [DropFiles [clip_a; notes; clip_c];
                             TogglePlayPause (λ _, false)] mount).

(** How many times [URL.revokeObjectURL(u)] was called. *)
Definition releases (u : string) (tr : list Call) : nat :=
  length (filter (λ c, c = RevokeObjectURL u) tr).

(** ** The element of each entry

    [plays h v p]: the mounted child [p] has the key of the entry [v] and
    denotes an element whose [src] is the URL of [v] (line 227). *)
Definition plays (h : list HTMLVideoElement) (v : Video) (p : string * nat) : Prop :=
  p.1 = id v ∧ ∃ el, h !! p.2 = Some el ∧ src el = url v.

Definition wired (st : App) : Prop :=
  Forall2 (plays (heap st)) (videos st) (mounted st).

(** The children a render creates for entries that are not mounted yet. *)
Definition fresh_children (h : list HTMLVideoElement) (news : list Video)
  : list (string * nat) :=
  imap (λ n v, (id v, length h + n)) news.

(** ** The drop zone highlight (lines 23-37 and 44-46)

    [dropZoneRef.current] is the drop zone [<div>], or [null]; of the element
    only its [classList] matters here, a list of pairwise different tokens. *)

(** [DOMTokenList.add] and [DOMTokenList.remove]. *)
Definition classList_add (c : string) (l : list string) : list string :=
  if decide (c ∈ l) then l else l ++ [c].

Definition classList_remove (c : string) (l : list string) : list string :=
  filter (λ x, x ≠ c) l.

(** [handleDragOver] (lines 23-29). *)
Definition handleDragOver (current : option (list string)) : option (list string) :=
  match current with
  | Some classList => Some (classList_add "bg-white/10" classList)
  | None => None
  end.

(** [handleDragLeave] (lines 31-37). *)
Definition handleDragLeave (current : option (list string)) : option (list string) :=
  match current with
  | Some classList => Some (classList_remove "bg-white/10" classList)
  | None => None
  end.

(** The first statement of [handleDrop] (lines 44-46). *)
Definition handleDrop_highlight (current : option (list string)) : option (list string) :=
  match current with
  | Some classList => Some (classList_remove "bg-white/10" classList)
  | None => None
  end.

Inductive DragEvent := DragOver | DragLeave | DropOnZone.

Definition drag (ev : DragEvent) (current : option (list string)) : option (list string) :=
  match ev with
  | DragOver => handleDragOver current
  | DragLeave => handleDragLeave current
  | DropOnZone => handleDrop_highlight current
  end.

Definition drags (evs : list DragEvent) (current : option (list string))
  : option (list string) :=
  foldl (λ c ev, drag ev c) current evs.

(** The [className] of the drop zone (line 198). *)
Definition dropZone_classes : list string :=
  ["mb-10"; "flex"; "w-full"; "max-w-4xl"; "flex-1"; "flex-col"; "items-center";
   "justify-center"; "border-2"; "border-dashed"; "border-white"; "p-8"].

(** * Lemmas *)



Lemma forEach_detach l st :
  forEach l (λ p, setVideoRef None p.1) st
  = Some (set_videoRefs (detach_all l (videoRefs st)) st).
Proof.
  revert st. induction l as [|p l IH]; intros st; simpl.
  - by destruct st.
  - rewrite IH. by destruct st.
Qed.

Lemma alter_sync e v m (h : list HTMLVideoElement) :
  alter (λ el, mkElement (src el) (volume el) m) e
    (alter (λ el, mkElement (src el) v (muted el)) e h)
  = alter (sync v m) e h.
Proof. rewrite list_alter_alter_eq. by apply list_alter_ext. Qed.

Lemma write_both e v m st :
  valid_volume v = true →
  (write_volume e v st ≫= λ s1, Some (write_muted e m s1))
  = Some (set_heap (alter (sync v m) e (heap st)) st).
Proof.
  intros Hv. unfold write_volume. rewrite Hv. simpl.
  unfold write_muted, set_heap. simpl. by rewrite alter_sync.
Qed.

Lemma setVideoRef_Some e i st :
  valid_volume (globalVolume st) = true →
  setVideoRef (Some e) i st
  = Some (set_videoRefs (Map_set i e (videoRefs st))
            (set_heap (alter (sync (globalVolume st) (isMuted st)) e (heap st)) st)).
Proof.
  intros Hv. unfold setVideoRef, write_volume. rewrite Hv. simpl.
  unfold write_muted, set_videoRefs, set_heap. simpl. by rewrite alter_sync.
Qed.

Lemma forEach_attach l st :
  valid_volume (globalVolume st) = true →
  forEach l (λ p, setVideoRef (Some p.2) p.1) st
  = Some (set_videoRefs (attach_all l (videoRefs st))
            (set_heap (sync_all (globalVolume st) (isMuted st) l (heap st)) st)).
Proof.
  revert st. induction l as [|p l IH]; intros st Hv; cbn [forEach].
  - by destruct st.
  - rewrite setVideoRef_Some by done. cbn [mbind option_bind].
    rewrite IH by (by destruct st). by destruct st.
Qed.

Lemma volume_effect_eq st :
  valid_volume (globalVolume st) = true →
  volume_effect st
  = Some (set_heap (sync_all (globalVolume st) (isMuted st) (videoRefs st) (heap st)) st).
Proof.
  intros Hv. unfold volume_effect.
  generalize (videoRefs st) as l.
  assert (∀ l s, forEach l
      (λ p s0, write_volume p.2 (globalVolume st) s0
               ≫= λ s1, Some (write_muted p.2 (isMuted st) s1)) s
    = Some (set_heap (sync_all (globalVolume st) (isMuted st) l (heap s)) s)) as H.
  { induction l as [|p l IH]; intros s; cbn [forEach].
    - by destruct s.
    - rewrite write_both by done. cbn [mbind option_bind].
      rewrite IH. by destruct s. }
  intros l. apply H.
Qed.

Lemma videos_cleanup_eq prev st :
  videos_cleanup prev st
  = mkApp (videos st) (globalVolume st) (isMuted st) (isPlaying st) (videoRefs st)
          (mounted st) (heap st) (created st) (trace st ++ revocations prev).
Proof.
  unfold videos_cleanup, revocations. revert st.
  induction prev as [|v prev IH]; intros st; simpl.
  - rewrite app_nil_r. by destruct st.
  - rewrite IH. simpl. by rewrite <- app_assoc.
Qed.


Lemma commit_eq vc prev st :
  valid_volume (globalVolume st) = true →
  commit vc prev st = Some (committed vc prev st).
Proof.
  intros Hv. unfold commit, committed.
  rewrite forEach_detach. cbn [mbind option_bind].
  rewrite forEach_attach by (by destruct st). cbn [mbind option_bind].
  fold (unchanged_control prev st).
  destruct (unchanged_control prev st).
  - destruct vc; [rewrite videos_cleanup_eq|]; by destruct st.
  - destruct vc; [rewrite videos_cleanup_eq|];
      (rewrite volume_effect_eq by (by destruct st)); by destruct st.
Qed.

(** With no child left and no control change the commit writes no volume,
    so it succeeds whatever [globalVolume] holds. *)
Lemma commit_no_children vc prev st :
  videos st = [] →
  unchanged_control prev st = true →
  commit vc prev st = Some (committed vc prev st).
Proof.
  intros Hvs Hc. unfold commit, committed.
  rewrite forEach_detach. cbn [mbind option_bind].
  fold (unchanged_control prev st). rewrite Hc.
  destruct st as [vs gv m pl table kids h n tr]; simpl in *; subst vs; simpl.
  destruct vc; [rewrite videos_cleanup_eq|]; done.
Qed.

Lemma unchanged_control_refl st : unchanged_control st st = true.
Proof.
  unfold unchanged_control. apply andb_true_iff; split.
  - by apply Leibniz.eqb_spec.
  - by destruct (isMuted st).
Qed.

(** ** The binding table *)

Lemma detach_all_nil (l table : list (string * nat)) :
  (∀ p, p ∈ table → p.1 ∈ l.*1) → detach_all l table = [].
Proof.
  revert table. induction l as [|q l IH]; intros table Hsub; simpl.
  - destruct table as [|p table]; [done|].
    specialize (Hsub p (list_elem_of_here _ _)). by apply elem_of_nil in Hsub.
  - apply IH. intros p [Hne Hin]%list_elem_of_filter.
    apply Hsub in Hin. simpl in Hin. apply elem_of_cons in Hin as [?|?]; done.
Qed.

Lemma Map_set_fresh k e (table : list (string * nat)) :
  k ∉ table.*1 → Map_set k e table = table ++ [(k, e)].
Proof.
  induction table as [|p table IH]; intros Hk; simpl; [done|].
  rewrite fmap_cons, not_elem_of_cons in Hk. destruct Hk as [Hne Hk].
  rewrite decide_False by done. by rewrite IH.
Qed.

Lemma attach_all_fresh (l table : list (string * nat)) :
  NoDup ((table ++ l).*1) → attach_all l table = table ++ l.
Proof.
  revert table. induction l as [|p l IH]; intros table Hnd; simpl.
  - by rewrite app_nil_r.
  - replace (table ++ p :: l) with ((table ++ [p]) ++ l) in *
      by (by rewrite <- app_assoc).
    destruct p as [k e]. simpl. rewrite Map_set_fresh.
    + by apply IH.
    + rewrite !fmap_app in Hnd. apply NoDup_app in Hnd as [Hnd _].
      apply NoDup_app in Hnd as (_ & Hnd & _).
      intros Hin. apply (Hnd k Hin). simpl. apply list_elem_of_here.
Qed.

Lemma Map_set_elem k e (table : list (string * nat)) p :
  p ∈ Map_set k e table → p = (k, e) ∨ p ∈ table.
Proof.
  induction table as [|q table IH]; simpl.
  - intros ->%list_elem_of_singleton. by left.
  - case_decide.
    + intros [->|?]%elem_of_cons; [by left|right; by apply list_elem_of_further].
    + intros [->|Hin]%elem_of_cons.
      * right. apply list_elem_of_here.
      * destruct (IH Hin); [by left|right; by apply list_elem_of_further].
Qed.

Lemma attach_all_elem (l table : list (string * nat)) p :
  p ∈ attach_all l table → p ∈ l ∨ p ∈ table.
Proof.
  revert table. induction l as [|q l IH]; intros table; simpl; [by right|].
  intros Hin. destruct (IH _ Hin) as [?|Hq].
  - left. by apply list_elem_of_further.
  - apply Map_set_elem in Hq as [->|?]; [left|by right].
    destruct q. apply list_elem_of_here.
Qed.

(** ** Reconciliation *)

Lemma reconcile_keys vs old h : (reconcile vs old h).1.*1 = id <$> vs.
Proof.
  revert old h. induction vs as [|v vs IH]; intros old h; simpl; [done|].
  destruct (take_key (id v) old) as [[e rest]|]; simpl; by rewrite IH.
Qed.

Lemma take_key_head k e old : take_key k ((k, e) :: old) = Some (e, old).
Proof. simpl. by rewrite decide_True. Qed.

(** The children of an unchanged list of keys keep their elements. *)
Lemma reconcile_same vs old h :
  old.*1 = id <$> vs → (reconcile vs old h).1 = old.
Proof.
  revert old h. induction vs as [|v vs IH]; intros old h Hk.
  - by destruct old.
  - destruct old as [|[k e] old]; [done|]. simpl in Hk.
    injection Hk as -> Hk. cbn [reconcile]. rewrite take_key_head.
    simpl. by rewrite IH.
Qed.

(** A mounted child whose key is not rendered any more is not looked at. *)
Lemma reconcile_skip vs k e old h :
  k ∉ (id <$> vs) → reconcile vs ((k, e) :: old) h = reconcile vs old h.
Proof.
  revert old h. induction vs as [|v vs IH]; intros old h Hk; [done|].
  rewrite fmap_cons, not_elem_of_cons in Hk. destruct Hk as [Hne Hk].
  cbn [reconcile take_key]. simpl. rewrite decide_False by done.
  destruct (take_key (id v) old) as [[e' rest]|]; simpl.
  - by rewrite IH.
  - by rewrite IH.
Qed.

Lemma reconcile_filter i vs old h :
  old.*1 = id <$> vs →
  (reconcile (filter (λ v, id v ≠ i) vs) old h).1 = Map_delete i old.
Proof.
  unfold Map_delete. revert old h.
  induction vs as [|v vs IH]; intros old h Hk.
  - by destruct old.
  - destruct old as [|[k e] old]; [done|]. simpl in Hk. injection Hk as -> Hk.
    rewrite !filter_cons. simpl. destruct (decide (id v ≠ i)) as [Hne|Heq].
    + cbn [reconcile]. rewrite take_key_head. simpl. by rewrite IH.
    + assert (id v = i) as Hi by (destruct (decide (id v = i)); tauto).
      rewrite reconcile_skip; [by apply IH|]. rewrite Hi.
      intros (w & Hw & [Hw' _]%list_elem_of_filter)%list_elem_of_fmap_1.
      by apply Hw'.
Qed.

Lemma take_key_elem k old e rest :
  take_key k old = Some (e, rest) → (k, e) ∈ old ∧ ∀ p, p ∈ rest → p ∈ old.
Proof.
  revert e rest. induction old as [|[k' e'] old IH]; intros e rest; simpl; [done|].
  case_decide as Hk; simpl in Hk.
  - intros [= <- <-]. subst k'. split; [apply list_elem_of_here|].
    intros p ?. by apply list_elem_of_further.
  - destruct (take_key k old) as [[e0 rest0]|]; simpl; [|done].
    intros [= <- <-]. destruct (IH e0 rest0 eq_refl) as [Hin Hsub]. split.
    + by apply list_elem_of_further.
    + intros p [->|?]%elem_of_cons; [apply list_elem_of_here|].
      apply list_elem_of_further. by apply Hsub.
Qed.

Lemma reconcile_length vs old h : length h ≤ length (reconcile vs old h).2.
Proof.
  revert old h. induction vs as [|v vs IH]; intros old h; simpl; [done|].
  destruct (take_key (id v) old) as [[e rest]|]; simpl.
  - etrans; [|apply IH]. unfold write_src. by rewrite length_alter.
  - etrans; [|apply IH]. rewrite length_app. simpl. lia.
Qed.

(** Every rendered child denotes an element of the heap. *)
Lemma reconcile_valid vs old h :
  Forall (λ p, p.2 < length h) old →
  Forall (λ p, p.2 < length (reconcile vs old h).2) (reconcile vs old h).1.
Proof.
  revert old h. induction vs as [|v vs IH]; intros old h Hold; simpl; [done|].
  destruct (take_key (id v) old) as [[e rest]|] eqn:Htake; simpl.
  - apply take_key_elem in Htake as [Hin Hsub].
    rewrite Forall_forall in Hold. constructor; simpl.
    + eapply Nat.lt_le_trans; [|apply reconcile_length].
      unfold write_src. rewrite length_alter. apply (Hold _ Hin).
    + apply IH. apply Forall_forall. intros p Hp.
      unfold write_src. rewrite length_alter. by apply Hold, Hsub.
  - constructor; simpl.
    + eapply Nat.lt_le_trans; [|apply reconcile_length].
      rewrite length_app. simpl. lia.
    + apply IH. eapply Forall_impl; [done|]. intros p Hp. simpl in *.
      rewrite length_app. simpl. lia.
Qed.


Lemma length_sync_all v m l h : length (sync_all v m l h) = length h.
Proof.
  revert h. induction l as [|p l IH]; intros h; [done|].
  change (sync_all v m (p :: l) h) with (sync_all v m l (alter (sync v m) p.2 h)).
  by rewrite IH, length_alter.
Qed.

Lemma sync_all_keeps v m l h e :
  in_sync v m h e → in_sync v m (sync_all v m l h) e.
Proof.
  revert h. induction l as [|p l IH]; intros h Hs; [done|].
  change (sync_all v m (p :: l) h) with (sync_all v m l (alter (sync v m) p.2 h)).
  apply IH. destruct Hs as (el & Hel & Hv & Hm).
  destruct (decide (p.2 = e)) as [->|Hne].
  - exists (sync v m el). by rewrite list_lookup_alter_eq, Hel.
  - exists el. by rewrite list_lookup_alter_ne.
Qed.

Lemma sync_all_syncs v m l h e :
  e ∈ l.*2 → e < length h → in_sync v m (sync_all v m l h) e.
Proof.
  revert h. induction l as [|p l IH]; intros h Hin Hlt.
  - by apply elem_of_nil in Hin.
  - change (sync_all v m (p :: l) h) with (sync_all v m l (alter (sync v m) p.2 h)).
    rewrite fmap_cons in Hin. apply elem_of_cons in Hin as [->|Hin].
    + apply sync_all_keeps. destruct (lookup_lt_is_Some_2 h p.2 Hlt) as [el Hel].
      exists (sync v m el). by rewrite list_lookup_alter_eq, Hel.
    + apply IH; [done|]. by rewrite length_alter.
Qed.


Lemma in_sync_lt v m h e : in_sync v m h e → e < length h.
Proof. intros (el & Hel & _). by eapply lookup_lt_Some. Qed.

Lemma mount_consistent : consistent mount.
Proof. split; simpl; try done; constructor. Qed.

(** A commit re-establishes consistency. *)
Lemma committed_consistent vc prev st :
  NoDup (id <$> videos st) →
  (∀ p, p ∈ videoRefs st → p.1 ∈ (mounted st).*1) →
  Forall (λ p, p.2 < length (heap st)) (mounted st) →
  valid_volume (globalVolume st) = true →
  consistent (committed vc prev st).
Proof.
  intros Hnd Hsub Hlt Hv.
  assert (attach_all (reconcile (videos st) (mounted st) (heap st)).1
            (detach_all (mounted st) (videoRefs st))
          = (reconcile (videos st) (mounted st) (heap st)).1) as Htable.
  { rewrite detach_all_nil by done. rewrite attach_all_fresh; [done|].
    simpl. by rewrite reconcile_keys. }
  split; unfold committed; cbn [videos mounted videoRefs globalVolume isMuted heap].
  - done.
  - apply reconcile_keys.
  - done.
  - rewrite Htable. apply Forall_forall. intros p Hp.
    assert (in_sync (globalVolume st) (isMuted st)
              (sync_all (globalVolume st) (isMuted st)
                 (reconcile (videos st) (mounted st) (heap st)).1
                 (reconcile (videos st) (mounted st) (heap st)).2) p.2) as Hs.
    { apply sync_all_syncs; [by apply list_elem_of_fmap_2|].
      pose proof (reconcile_valid (videos st) _ _ Hlt) as Hr.
      rewrite Forall_forall in Hr. by apply Hr. }
    destruct (unchanged_control prev st); [done|]. by apply sync_all_keeps.
  - done.
Qed.

Lemma consistent_valid_refs st :
  consistent st → Forall (λ p, p.2 < length (heap st)) (mounted st).
Proof.
  intros Hc. eapply Forall_impl; [apply (cons_sync _ Hc)|].
  intros p Hp. simpl in Hp. eapply in_sync_lt, Hp.
Qed.

Lemma NoDup_ids_filter (P : Video → Prop) `{!∀ v, Decision (P v)} vs :
  NoDup (id <$> vs) → NoDup (id <$> filter P vs).
Proof.
  intros Hnd. eapply sublist_NoDup; [done|].
  apply fmap_sublist, sublist_filter.
Qed.

(** Every element in the table of a committed state is in step with the
    control state, provided the table held nothing but rendered children
    before. *)
Lemma committed_table vc prev st :
  (∀ p, p ∈ videoRefs st → p.1 ∈ (mounted st).*1) →
  videoRefs (committed vc prev st)
  = attach_all (mounted (committed vc prev st)) [].
Proof. intros Hsub. unfold committed. simpl. by rewrite detach_all_nil. Qed.

Lemma committed_in_sync vc prev st :
  (∀ p, p ∈ videoRefs st → p.1 ∈ (mounted st).*1) →
  Forall (λ p, p.2 < length (heap st)) (mounted st) →
  ∀ p, p ∈ videoRefs (committed vc prev st) →
    in_sync (globalVolume st) (isMuted st) (heap (committed vc prev st)) p.2.
Proof.
  intros Hsub Hlt p Hp. rewrite committed_table in Hp by done.
  apply attach_all_elem in Hp as [Hp|Hp]; [|by apply elem_of_nil in Hp].
  unfold committed in *. simpl in *.
  set (r := reconcile (videos st) (mounted st) (heap st)) in *.
  assert (in_sync (globalVolume st) (isMuted st)
            (sync_all (globalVolume st) (isMuted st) r.1 r.2) p.2) as Hs.
  { apply sync_all_syncs; [by apply list_elem_of_fmap_2|].
    pose proof (reconcile_valid (videos st) _ _ Hlt) as Hr.
    rewrite Forall_forall in Hr. by apply Hr. }
  destruct (unchanged_control prev st); [done|]. by apply sync_all_keeps.
Qed.

Lemma detach_all_empty l : detach_all l [] = [].
Proof. apply detach_all_nil. intros p Hp. by apply elem_of_nil in Hp. Qed.

Lemma filter_key_absent {A} (f : A → string) (i : string) (l : list A) :
  i ∉ f <$> l → filter (λ y, f y ≠ i) l = l.
Proof.
  induction l as [|y l IH]; [done|]. rewrite fmap_cons, not_elem_of_cons.
  intros [Hne Hl]. rewrite filter_cons_True by done. by rewrite IH.
Qed.

(** Splitting a list with unique keys at a key. *)
Lemma filter_key_present {A} (f : A → string) (i : string) (l : list A) :
  NoDup (f <$> l) → i ∈ f <$> l →
  ∃ l1 x l2, l = l1 ++ x :: l2 ∧ f x = i ∧
             filter (λ y, f y ≠ i) l = l1 ++ l2 ∧ i ∉ f <$> (l1 ++ l2).
Proof.
  intros Hnd (x & -> & Hx)%list_elem_of_fmap_1.
  apply list_elem_of_split in Hx as (l1 & l2 & ->).
  rewrite fmap_app, fmap_cons in Hnd.
  apply NoDup_app in Hnd as (_ & Hl1 & [Hl2 _]%NoDup_cons).
  assert (f x ∉ f <$> l1) as Hn1.
  { intros Hin. apply (Hl1 _ Hin), list_elem_of_here. }
  exists l1, x, l2. split_and!; [done|done| |].
  - rewrite filter_app, filter_cons_False by (intros H; by apply H).
    by rewrite !filter_key_absent.
  - rewrite fmap_app, elem_of_app. tauto.
Qed.

Lemma filter_key_gone {A} (f : A → string) (i : string) (l : list A) :
  i ∉ f <$> filter (λ y, f y ≠ i) l.
Proof.
  intros (y & -> & [Hy _]%list_elem_of_filter)%list_elem_of_fmap_1. by apply Hy.
Qed.

(** The calls added by a loop over the binding table. *)
Lemma foldl_call (g : string * nat → Call) (table : list (string * nat)) st :
  foldl (λ s p, call (g p) s) st table
  = mkApp (videos st) (globalVolume st) (isMuted st) (isPlaying st) (videoRefs st)
          (mounted st) (heap st) (created st) (trace st ++ (g <$> table)).
Proof.
  revert st. induction table as [|p table IH]; intros st; simpl.
  - rewrite app_nil_r. by destruct st.
  - rewrite IH. simpl. by rewrite <- app_assoc.
Qed.

Lemma play_rejections_eq rejected table st :
  play_rejections rejected table st
  = mkApp (videos st) (globalVolume st) (isMuted st) (isPlaying st) (videoRefs st)
          (mounted st) (heap st) (created st)
          (trace st ++ ((λ p, ConsoleError p.2) <$> filter (λ p, rejected p.2 = true) table)).
Proof.
  unfold play_rejections. revert st.
  induction table as [|p table IH]; intros st; cbn [foldl].
  - simpl. rewrite app_nil_r. by destruct st.
  - rewrite IH, filter_cons. case_decide as Hr.
    + rewrite Hr. simpl. by rewrite <- app_assoc.
    + apply not_true_is_false in Hr. by rewrite Hr.
Qed.

(** * Properties of the page *)

Section Page.

Variable randomUUID : nat → string.
Variable createObjectURL : nat → File → string.

Local Abbreviation fire := (dispatch randomUUID createObjectURL).

(** ** What each event yields *)

Lemma fire_drop files st :
  valid_volume (globalVolume st) = true →
  fire (DropFiles files) st
  = Some (committed true st (handleDrop randomUUID createObjectURL files st)).
Proof. intros Hv. by apply commit_eq. Qed.

Lemma fire_remove i st :
  valid_volume (globalVolume st) = true →
  fire (Remove i) st = Some (committed true st (removeVideo i st)).
Proof.
  intros Hv. apply commit_eq. unfold removeVideo.
  by destruct (List.find _ _).
Qed.

Lemma fire_clear st :
  fire ClearAll st = Some (committed true st (clearAllVideos st)).
Proof. apply commit_no_children; [done|]. exact (unchanged_control_refl st). Qed.

Lemma fire_mute st :
  valid_volume (globalVolume st) = true →
  fire ToggleMute st = Some (committed false st (toggleMute st)).
Proof. intros Hv. by apply commit_eq. Qed.

Lemma fire_volume v st :
  valid_volume v = true →
  fire (VolumeChange v) st
  = Some (if Leibniz.eqb v (globalVolume st) then st
          else committed false st (setGlobalVolume v st)).
Proof.
  intros Hv. simpl. destruct (Leibniz.eqb v (globalVolume st)); [done|].
  by apply commit_eq.
Qed.

Lemma togglePlayPause_eq st :
  togglePlayPause st
  = mkApp (videos st) (globalVolume st) (isMuted st) (negb (isPlaying st))
          (videoRefs st) (mounted st) (heap st) (created st)
          (trace st ++ ((λ p, if isPlaying st then Pause p.2 else Play p.2)
                          <$> videoRefs st)).
Proof.
  unfold togglePlayPause.
  rewrite (foldl_call (λ p, if isPlaying st then Pause p.2 else Play p.2)
             (videoRefs st) st) || (destruct (isPlaying st);
    [rewrite (foldl_call (λ p, Pause p.2))|rewrite (foldl_call (λ p, Play p.2))]);
    done.
Qed.

Lemma fire_toggle rejected st :
  valid_volume (globalVolume st) = true →
  fire (TogglePlayPause rejected) st
  = Some (let st' := committed false st (togglePlayPause st) in
          if isPlaying st then st'
          else play_rejections rejected (videoRefs st) st').
Proof.
  intros Hv. cbn [dispatch]. rewrite commit_eq; [done|].
  by rewrite togglePlayPause_eq.
Qed.

(** ** Clear *)

(** C2: whatever the state, Clear All revokes the URL of every entry of the
    registry, once per entry and in registry order, and leaves the registry
    and the binding table empty. *)
Theorem clear_releases_every_entry st :
  ∃ st',
    dispatch randomUUID createObjectURL ClearAll st = Some st' ∧
    trace st' = trace st ++ ((λ v, RevokeObjectURL (url v)) <$> videos st) ∧
    videos st' = [] ∧
    videoRefs st' = [].
Proof.
  eexists. split; [apply fire_clear|]. unfold committed. simpl.
  split_and!; [done|done|]. apply detach_all_empty.
Qed.

(** The handler alone revokes nothing: the revocations of a Clear All are
    those of the effect clean-up. *)
Lemma clearAllVideos_trace st : trace (clearAllVideos st) = trace st.
Proof. done. Qed.

(** ** Drop *)

(** C3: a drop appends one entry per video-typed file, in payload order, at
    the end of the registry; other files give no entry and no logged error;
    with no video file the registry keeps its contents. *)
Theorem drop_appends_video_files files st :
  valid_volume (globalVolume st) = true →
  let accepted := filter (λ file, String.prefix "video/" (type file) = true) files in
  let others := filter (λ file, ¬ String.prefix "video/" (type file) = true) files in
  ∃ st' news,
    dispatch randomUUID createObjectURL (DropFiles files) st = Some st' ∧
    videos st' = videos st ++ news ∧
    length news = length accepted ∧
    length accepted + length others = length files ∧
    (∀ n file, accepted !! n = Some file →
       news !! n = Some (mkVideo (randomUUID (created st + n))
                                 (createObjectURL (created st + n) file))) ∧
    (accepted = [] → videos st' = videos st) ∧
    (∀ e, ConsoleError e ∈ trace st' → ConsoleError e ∈ trace st).
Proof.
  intros Hv accepted others.
  eexists _, _. split; [by apply fire_drop|].
  unfold committed, handleDrop. cbn [videos trace setVideos set_created].
  fold accepted. split_and!.
  - done.
  - by rewrite length_imap.
  - rewrite <- length_app. apply Permutation_length, filter_app_complement.
  - intros n file Hn. by rewrite list_lookup_imap, Hn.
  - intros ->. by rewrite app_nil_r.
  - intros e [?|Hin]%elem_of_app; [done|].
    unfold revocations in Hin. by apply list_elem_of_fmap_1 in Hin as (? & ? & _).
Qed.

(** A drop leaves [globalVolume], [isMuted] and [isPlaying] as they were,
    and every record of the registry stays at its position with its id and
    URL string.  Nothing is said here of the calls made: the URLs of these
    records are revoked by the same drop ([drop_revokes_urls_still_held]
    below). *)
Theorem drop_keeps_control_state files st :
  valid_volume (globalVolume st) = true →
  ∃ st',
    dispatch randomUUID createObjectURL (DropFiles files) st = Some st' ∧
    globalVolume st' = globalVolume st ∧
    isMuted st' = isMuted st ∧
    isPlaying st' = isPlaying st ∧
    (∀ n v, videos st !! n = Some v → videos st' !! n = Some v).
Proof.
  intros Hv. eexists. split; [by apply fire_drop|].
  unfold committed, handleDrop. cbn [videos globalVolume isMuted isPlaying setVideos set_created].
  split_and!; try done.
  intros n v Hn. by apply lookup_app_l_Some.
Qed.

(** ** Play and pause *)


Lemma fire_other_isPlaying ev st :
  valid_volume (globalVolume st) = true →
  is_toggle ev = false → deliverable ev →
  ∃ st', fire ev st = Some st' ∧ isPlaying st' = isPlaying st.
Proof.
  intros Hv Ht Hd. destruct ev as [files|i| | |v|r]; try done.
  - eexists. split; [by apply fire_drop|done].
  - eexists. split; [by apply fire_remove|].
    unfold committed, removeVideo. simpl. by destruct (List.find _ _).
  - eexists. split; [by apply fire_clear|done].
  - eexists. split; [by apply fire_mute|done].
  - eexists. split; [by apply fire_volume|].
    by destruct (Leibniz.eqb v (globalVolume st)).
Qed.

(** C5: [isPlaying] starts as [true]; a toggle in state Playing calls
    [pause()] on every bound element and moves to Paused; a toggle in state
    Paused calls [play()] on every bound element (before any rejection is
    logged) and moves to Playing; every other event leaves [isPlaying] as it
    was. *)
Theorem transport_is_a_two_state_toggle st rejected ev :
  valid_volume (globalVolume st) = true →
  is_toggle ev = false → deliverable ev →
  isPlaying mount = true ∧
  (∃ st',
     dispatch randomUUID createObjectURL (TogglePlayPause rejected) st = Some st' ∧
     isPlaying st' = negb (isPlaying st) ∧
     (isPlaying st = true →
        trace st' = trace st ++ ((λ p, Pause p.2) <$> videoRefs st)) ∧
     (isPlaying st = false →
        ∃ logged, trace st' = trace st ++ ((λ p, Play p.2) <$> videoRefs st) ++ logged
                  ∧ ∀ c, c ∈ logged → ∃ e, c = ConsoleError e)) ∧
  (∃ st', dispatch randomUUID createObjectURL ev st = Some st' ∧
         isPlaying st' = isPlaying st).
Proof.
  intros Hv Ht Hd. split_and!; [done| |by apply fire_other_isPlaying].
  eexists. split; [by apply fire_toggle|].
  cbn zeta. rewrite togglePlayPause_eq.
  destruct (isPlaying st) eqn:Hp.
  - unfold committed. simpl. split_and!; [done|done|done].
  - rewrite play_rejections_eq. unfold committed. simpl.
    split_and!; [done|done|]. intros _. eexists. split.
    + by rewrite <- app_assoc.
    + intros c (p & -> & _)%list_elem_of_fmap_1. by eexists.
Qed.

(** C8: a toggle from Paused calls [play()] on every bound element, in table
    order, whichever of them are rejected; each rejection is logged with
    [console.error] after the calls, and [isPlaying] becomes [true]. *)
Theorem play_failures_do_not_abort st rejected :
  valid_volume (globalVolume st) = true →
  isPlaying st = false →
  ∃ st',
    dispatch randomUUID createObjectURL (TogglePlayPause rejected) st = Some st' ∧
    isPlaying st' = true ∧
    trace st' = trace st
                ++ ((λ p, Play p.2) <$> videoRefs st)
                ++ ((λ p, ConsoleError p.2)
                      <$> filter (λ p, rejected p.2 = true) (videoRefs st)).
Proof.
  intros Hv Hp. eexists. split; [by apply fire_toggle|].
  cbn zeta. rewrite togglePlayPause_eq, Hp, play_rejections_eq.
  unfold committed. simpl. split; [done|]. by rewrite <- app_assoc.
Qed.

(** ** Remove *)

Lemma removeVideo_fields i st :
  videos (removeVideo i st) = filter (λ v, id v ≠ i) (videos st) ∧
  videoRefs (removeVideo i st) = Map_delete i (videoRefs st) ∧
  mounted (removeVideo i st) = mounted st ∧
  heap (removeVideo i st) = heap st ∧
  globalVolume (removeVideo i st) = globalVolume st ∧
  isMuted (removeVideo i st) = isMuted st.
Proof. unfold removeVideo. by destruct (List.find _ _). Qed.

Lemma remove_result i st :
  consistent st →
  ∃ st',
    fire (Remove i) st = Some st' ∧
    videos st' = filter (λ v, id v ≠ i) (videos st) ∧
    videoRefs st' = Map_delete i (videoRefs st) ∧
    consistent st'.
Proof.
  intros Hc. destruct (removeVideo_fields i st) as (Hvs & Hrefs & Hm & Hh & Hg & Hmu).
  pose proof (cons_refs _ Hc) as Href. pose proof (cons_keys _ Hc) as Hkeys.
  assert (∀ p, p ∈ videoRefs (removeVideo i st) → p.1 ∈ (mounted (removeVideo i st)).*1)
    as Hsub.
  { intros p. rewrite Hrefs, Hm, Href. unfold Map_delete.
    intros [_ Hp]%list_elem_of_filter. by apply list_elem_of_fmap_2. }
  eexists. split; [apply fire_remove, (cons_volume _ Hc)|]. split_and!.
  - by unfold committed.
  - rewrite committed_table by done. unfold committed. cbn [mounted].
    rewrite Hvs, Hm, reconcile_filter by done. rewrite Href.
    apply attach_all_fresh. simpl. unfold Map_delete.
    eapply sublist_NoDup; [|apply fmap_sublist, sublist_filter].
    rewrite Hkeys. apply (cons_nodup _ Hc).
  - apply committed_consistent.
    + rewrite Hvs. apply NoDup_ids_filter, (cons_nodup _ Hc).
    + done.
    + rewrite Hm, Hh. by apply consistent_valid_refs.
    + rewrite Hg. apply (cons_volume _ Hc).
Qed.

(** Removing the id of an entry takes exactly that record out of the
    registry and its binding out of the table, every other record and binding
    staying in place and in order; removing an id that is not in the
    registry leaves the registry and the table as they were.  Nothing is
    said here of the calls made: the URLs of the records that stay are
    revoked by the same removal ([remove_revokes_removed_url_twice]
    below). *)
Theorem remove_affects_only_that_entry i st :
  consistent st →
  ∃ st',
    dispatch randomUUID createObjectURL (Remove i) st = Some st' ∧
    (i ∈ id <$> videos st →
       ∃ l1 v l2 t1 e t2,
         videos st = l1 ++ v :: l2 ∧ id v = i ∧ videos st' = l1 ++ l2 ∧
         videoRefs st = t1 ++ (i, e) :: t2 ∧ videoRefs st' = t1 ++ t2 ∧
         (i ∉ id <$> videos st') ∧ (i ∉ fst <$> videoRefs st')) ∧
    (i ∉ id <$> videos st →
       videos st' = videos st ∧ videoRefs st' = videoRefs st).
Proof.
  intros Hc. destruct (remove_result i st Hc) as (st' & Hfire & Hvs & Hrefs & _).
  pose proof (cons_nodup _ Hc) as Hnd.
  assert ((videoRefs st).*1 = id <$> videos st) as Hkeys
    by (rewrite (cons_refs _ Hc); apply (cons_keys _ Hc)).
  exists st'. split; [done|]. split.
  - intros Hin.
    destruct (filter_key_present id i (videos st) Hnd Hin)
      as (l1 & v & l2 & Hl & Hv & Hf & Hgone).
    destruct (filter_key_present fst i (videoRefs st)) as (t1 & [k e] & t2 & Ht & Hk & Hft & Htgone).
    { by rewrite Hkeys. }
    { by rewrite Hkeys. }
    simpl in Hk. subst k.
    exists l1, v, l2, t1, e, t2. rewrite Hvs, Hrefs. unfold Map_delete.
    rewrite Hf, Hft. split_and!; done.
  - intros Hout. rewrite Hvs, Hrefs. unfold Map_delete. split.
    + by apply filter_key_absent.
    + apply (filter_key_absent fst). by rewrite Hkeys.
Qed.

(** C9: removing the same id a second time changes neither the registry nor
    the binding table. *)
Theorem remove_twice_is_remove_once i st :
  consistent st →
  ∃ st1 st2,
    dispatch randomUUID createObjectURL (Remove i) st = Some st1 ∧
    dispatch randomUUID createObjectURL (Remove i) st1 = Some st2 ∧
    videos st2 = videos st1 ∧
    videoRefs st2 = videoRefs st1.
Proof.
  intros Hc.
  destruct (remove_result i st Hc) as (st1 & Hfire1 & Hvs1 & Hrefs1 & Hc1).
  destruct (remove_result i st1 Hc1) as (st2 & Hfire2 & Hvs2 & Hrefs2 & _).
  exists st1, st2. split_and!; [done|done| |].
  - rewrite Hvs2. apply filter_key_absent. rewrite Hvs1. apply filter_key_gone.
  - rewrite Hrefs2. unfold Map_delete. apply (filter_key_absent fst).
    rewrite Hrefs1. apply (filter_key_gone fst).
Qed.

(** ** Global volume *)

Lemma volume_result v st :
  consistent st → valid_volume v = true →
  ∃ st',
    fire (VolumeChange v) st = Some st' ∧
    globalVolume st' = v ∧
    isMuted st' = isMuted st ∧
    videos st' = videos st ∧
    videoRefs st' = videoRefs st ∧
    consistent st'.
Proof.
  intros Hc Hv. eexists. split; [by apply fire_volume|].
  destruct (Leibniz.eqb v (globalVolume st)) eqn:Heq.
  - apply Leibniz.eqb_spec in Heq. by split_and!.
  - assert (∀ p, p ∈ videoRefs (setGlobalVolume v st)
                 → p.1 ∈ (mounted (setGlobalVolume v st)).*1) as Hsub.
    { intros p. simpl. rewrite (cons_refs _ Hc). apply list_elem_of_fmap_2. }
    split_and!; try done.
    + rewrite committed_table by done. unfold committed. cbn [mounted].
      simpl. rewrite reconcile_same by apply (cons_keys _ Hc).
      rewrite (cons_refs _ Hc). apply attach_all_fresh. simpl.
      rewrite (cons_keys _ Hc). apply (cons_nodup _ Hc).
    + apply committed_consistent; [apply (cons_nodup _ Hc)|done| |done].
      exact (consistent_valid_refs st Hc).
Qed.

Lemma consistent_bound_in_sync st k e :
  consistent st → (k, e) ∈ videoRefs st →
  in_sync (globalVolume st) (isMuted st) (heap st) e.
Proof.
  intros Hc Hin. rewrite (cons_refs _ Hc) in Hin.
  pose proof (cons_sync _ Hc) as Hs. rewrite Forall_forall in Hs.
  apply (Hs _ Hin).
Qed.

(** C4: after the volume is set to [v], every element in the binding table
    has volume [v]; an element bound from then on gets volume [v] and the
    current mute flag inside [setVideoRef], before it is put in the table;
    and after a following drop every bound element, the new ones included,
    has volume [v], although that commit runs no volume effect. *)
Theorem volume_reaches_bound_and_later_handles v st :
  consistent st → valid_volume v = true →
  ∃ st',
    dispatch randomUUID createObjectURL (VolumeChange v) st = Some st' ∧
    (∀ k e, (k, e) ∈ videoRefs st' →
       ∃ el, heap st' !! e = Some el ∧ volume el = v) ∧
    (∀ e i, e < length (heap st') →
       ∃ s1 el,
         videoRefs s1 = videoRefs st' ∧
         heap s1 !! e = Some el ∧ volume el = v ∧ muted el = isMuted st' ∧
         setVideoRef (Some e) i st'
         = Some (set_videoRefs (Map_set i e (videoRefs s1)) s1)) ∧
    (∀ files, ∃ st'',
       dispatch randomUUID createObjectURL (DropFiles files) st' = Some st'' ∧
       unchanged_control st' (handleDrop randomUUID createObjectURL files st') = true ∧
       ∀ k e, (k, e) ∈ videoRefs st'' →
         ∃ el, heap st'' !! e = Some el ∧ volume el = v ∧ muted el = isMuted st').
Proof.
  intros Hc Hv.
  destruct (volume_result v st Hc Hv) as (st' & Hfire & Hg & Hm & _ & _ & Hc').
  exists st'. split_and!; [done| | |].
  - intros k e Hin.
    destruct (consistent_bound_in_sync _ _ _ Hc' Hin) as (el & Hel & Hvol & _).
    exists el. by rewrite <- Hg.
  - intros e i Hlt. destruct (lookup_lt_is_Some_2 _ _ Hlt) as [el Hel].
    exists (set_heap (alter (sync (globalVolume st') (isMuted st')) e (heap st')) st'),
           (sync (globalVolume st') (isMuted st') el).
    split_and!; [done| |by simpl|done|].
    + simpl. by rewrite list_lookup_alter_eq, Hel.
    + rewrite setVideoRef_Some by apply (cons_volume _ Hc'). done.
  - intros files. eexists. split; [apply fire_drop, (cons_volume _ Hc')|].
    split; [exact (unchanged_control_refl st')|].
    intros k e Hin. apply committed_in_sync in Hin.
    + destruct Hin as (el & Hel & Hvol & Hmu). exists el.
      simpl in Hvol, Hmu. by rewrite <- Hg.
    + intros p. simpl. rewrite (cons_refs _ Hc'). apply list_elem_of_fmap_2.
    + exact (consistent_valid_refs st' Hc').
Qed.

(** C7, as the code has it: a value [v] with [0 <= v <= 1] is stored
    unchanged in [globalVolume] and is the volume of every element in the
    binding table afterwards. *)
Theorem volume_in_range_is_stored_and_written v st :
  consistent st → valid_volume v = true →
  ∃ st',
    dispatch randomUUID createObjectURL (VolumeChange v) st = Some st' ∧
    globalVolume st' = v ∧
    valid_volume (globalVolume st') = true ∧
    (∀ k e, (k, e) ∈ videoRefs st' →
       ∃ el, heap st' !! e = Some el ∧ volume el = globalVolume st').
Proof.
  intros Hc Hv.
  destruct (volume_result v st Hc Hv) as (st' & Hfire & Hg & _ & _ & _ & Hc').
  exists st'. split_and!; [done|done|by rewrite Hg|].
  intros k e Hin.
  destruct (consistent_bound_in_sync _ _ _ Hc' Hin) as (el & Hel & Hvol & _).
  by exists el.
Qed.

(** No clamping happens: the handler stores the number it is given. *)
Lemma volume_stored_as_given v st :
  globalVolume (setGlobalVolume v st) = v.
Proof. done. Qed.

(** ** Where the revocations come from *)

Lemma drop_trace files st st' :
  fire (DropFiles files) st = Some st' →
  valid_volume (globalVolume st) = true →
  trace st' = trace st ++ revocations (videos st).
Proof. intros Hfire Hv. rewrite fire_drop in Hfire by done. by injection Hfire as <-. Qed.

Lemma remove_trace i st st' :
  fire (Remove i) st = Some st' →
  valid_volume (globalVolume st) = true →
  trace st'
  = trace st
    ++ match List.find (λ v, bool_decide (id v = i)) (videos st) with
       | Some video => [RevokeObjectURL (url video)]
       | None => []
       end
    ++ revocations (videos st).
Proof.
  intros Hfire Hv. rewrite fire_remove in Hfire by done. injection Hfire as <-.
  unfold committed, removeVideo. simpl.
  destruct (List.find _ _); simpl; by rewrite <- ?app_assoc.
Qed.

(** ** Reachable states are consistent *)

Section Reachable.

(** [crypto.randomUUID()] never returns the same identifier twice. *)
Hypothesis randomUUID_inj : ∀ m n, randomUUID m = randomUUID n → m = n.


Lemma consistent_trace st tr :
  consistent st →
  consistent (mkApp (videos st) (globalVolume st) (isMuted st) (isPlaying st)
                    (videoRefs st) (mounted st) (heap st) (created st) tr).
Proof. intros [Hnd Hk Hr Hs Hv]. by split. Qed.

Lemma handleDrop_ids_NoDup files st :
  consistent st → issued randomUUID st →
  NoDup (id <$> videos (handleDrop randomUUID createObjectURL files st)).
Proof.
  intros Hc Hi. unfold handleDrop. cbn [videos setVideos set_created].
  set (accepted := filter _ files).
  rewrite fmap_app. apply NoDup_app. split_and!.
  - apply (cons_nodup _ Hc).
  - intros x (v & -> & Hv)%list_elem_of_fmap_1 (w & Hw & Hin)%list_elem_of_fmap_1.
    unfold issued in Hi. rewrite Forall_forall in Hi.
    destruct (Hi v Hv) as (n & Hn & Hid).
    apply elem_of_lookup_imap_1 in Hin as (k & file & -> & _). simpl in Hw.
    rewrite Hid in Hw. apply randomUUID_inj in Hw. lia.
  - apply NoDup_alt. intros j k x.
    rewrite !list_lookup_fmap, !list_lookup_imap.
    destruct (accepted !! j) as [fj|]; [|done].
    destruct (accepted !! k) as [fk|]; [|done]. simpl.
    intros [= <-] [= Hx]. apply randomUUID_inj in Hx. lia.
Qed.

Lemma handleDrop_issued files st :
  issued randomUUID st →
  issued randomUUID (handleDrop randomUUID createObjectURL files st).
Proof.
  unfold issued, handleDrop. cbn [videos created setVideos set_created].
  intros Hi. apply Forall_app. split.
  - eapply Forall_impl; [done|]. intros v (n & Hn & Hid). exists n. split; [lia|done].
  - apply Forall_forall. intros v (k & file & -> & Hk)%elem_of_lookup_imap_1.
    apply lookup_lt_Some in Hk. eexists. split; [|done]. lia.
Qed.

(** Every deliverable event takes a consistent state to a consistent state. *)
Lemma fire_consistent ev st st' :
  consistent st → issued randomUUID st → deliverable ev →
  fire ev st = Some st' → consistent st' ∧ issued randomUUID st'.
Proof.
  intros Hc Hi Hd Hfire.
  pose proof (cons_volume _ Hc) as Hv.
  assert (∀ s, videoRefs s = videoRefs st → mounted s = mounted st →
               ∀ p, p ∈ videoRefs s → p.1 ∈ (mounted s).*1) as Hsub.
  { intros s -> -> p. rewrite (cons_refs _ Hc). apply list_elem_of_fmap_2. }
  destruct ev as [files|i| | |v|rejected].
  - rewrite fire_drop in Hfire by done. injection Hfire as <-. split.
    + apply committed_consistent; [by apply handleDrop_ids_NoDup|by apply Hsub| |done].
      exact (consistent_valid_refs st Hc).
    + by apply handleDrop_issued.
  - destruct (remove_result i st Hc) as (s & Hs & Hvs & _ & Hcs).
    rewrite Hs in Hfire. injection Hfire as <-. split; [done|].
    unfold issued. rewrite Hvs.
    assert (created s = created st) as ->.
    { rewrite fire_remove in Hs by done. injection Hs as <-.
      unfold committed, removeVideo. simpl. by destruct (List.find _ _). }
    apply Forall_forall. intros w [_ Hw]%list_elem_of_filter.
    unfold issued in Hi. rewrite Forall_forall in Hi. by apply Hi.
  - rewrite fire_clear in Hfire. injection Hfire as <-. split.
    + apply committed_consistent; simpl; [constructor| | |done].
      * intros p Hp. by apply elem_of_nil in Hp.
      * exact (consistent_valid_refs st Hc).
    + unfold issued. simpl. constructor.
  - rewrite fire_mute in Hfire by done. injection Hfire as <-. split.
    + apply committed_consistent; [apply (cons_nodup _ Hc)|by apply Hsub| |done].
      exact (consistent_valid_refs st Hc).
    + done.
  - destruct (volume_result v st Hc Hd) as (s & Hs & _ & _ & Hvs & _ & Hcs).
    rewrite Hs in Hfire. injection Hfire as <-. split; [done|].
    unfold issued. rewrite Hvs.
    assert (created s = created st) as ->; [|done].
    rewrite fire_volume in Hs by done. injection Hs as <-.
    by destruct (Leibniz.eqb v (globalVolume st)).
  - rewrite fire_toggle in Hfire by done. injection Hfire as <-. cbn zeta.
    assert (consistent (committed false st (togglePlayPause st))) as Hcs.
    { rewrite togglePlayPause_eq.
      apply committed_consistent; [apply (cons_nodup _ Hc)|by apply Hsub| |done].
      exact (consistent_valid_refs st Hc). }
    destruct (isPlaying st).
    + split; [done|]. by rewrite togglePlayPause_eq.
    + rewrite play_rejections_eq. split; [by apply consistent_trace|].
      by rewrite togglePlayPause_eq.
Qed.

(** Every state the page reaches from its first render is consistent. *)
Theorem reachable_consistent evs st :
  Forall deliverable evs →
  run randomUUID createObjectURL evs mount = Some st →
  consistent st.
Proof.
  intros Hevs Hrun.
  assert (∀ s, consistent s → issued randomUUID s →
               run randomUUID createObjectURL evs s = Some st → consistent st) as H.
  { clear Hrun. induction Hevs as [|ev evs Hev _ IH]; intros s Hc Hi; simpl.
    - by intros [= <-].
    - destruct (fire ev s) as [s'|] eqn:Hfire; simpl; [|done].
      destruct (fire_consistent ev s s' Hc Hi Hev Hfire). by apply IH. }
  apply (H mount); [apply mount_consistent|constructor|done].
Qed.

End Reachable.

(** * Further properties *)

(** ** Revocations made by drop, remove and unmount *)

Lemma releases_app u tr1 tr2 :
  releases u (tr1 ++ tr2) = releases u tr1 + releases u tr2.
Proof. unfold releases. by rewrite filter_app, length_app. Qed.

Lemma releases_revocations u (vs : list Video) v :
  v ∈ vs → url v = u → 1 ≤ releases u (revocations vs).
Proof.
  intros Hin Hu. unfold releases, revocations.
  assert (RevokeObjectURL u ∈ filter (λ c, c = RevokeObjectURL u)
            ((λ v, RevokeObjectURL (url v)) <$> vs)) as Hc.
  { apply list_elem_of_filter. split; [done|].
    apply list_elem_of_fmap. exists v. by rewrite Hu. }
  destruct (filter _ _); [by apply elem_of_nil in Hc|simpl; lia].
Qed.

Lemma find_by_id (vs : list Video) v :
  NoDup (id <$> vs) → v ∈ vs →
  List.find (λ w, bool_decide (id w = id v)) vs = Some v.
Proof.
  induction vs as [|w vs IH]; intros Hnd Hin; [by apply elem_of_nil in Hin|].
  rewrite fmap_cons in Hnd. apply NoDup_cons in Hnd as [Hw Hnd]. simpl.
  apply elem_of_cons in Hin as [->|Hin].
  - by rewrite bool_decide_eq_true_2.
  - rewrite bool_decide_eq_false_2; [by apply IH|].
    intros Heq. apply Hw. rewrite Heq. by apply list_elem_of_fmap_2.
Qed.

(** X1: a drop, whatever its payload, revokes the URL of every entry that
    is in the registry before it, and all these entries stay in the
    registry. *)
Theorem drop_revokes_urls_still_held files st :
  valid_volume (globalVolume st) = true →
  ∃ st',
    dispatch randomUUID createObjectURL (DropFiles files) st = Some st' ∧
    trace st' = trace st ++ ((λ v, RevokeObjectURL (url v)) <$> videos st) ∧
    (∀ v, v ∈ videos st →
       v ∈ videos st' ∧
       releases (url v) (trace st) + 1 ≤ releases (url v) (trace st')).
Proof.
  intros Hv. eexists. split; [by apply fire_drop|].
  unfold committed, handleDrop. cbn [videos trace setVideos set_created].
  split; [done|]. intros v Hin. split.
  - apply elem_of_app. by left.
  - rewrite releases_app. pose proof (releases_revocations (url v) _ v Hin eq_refl).
    lia.
Qed.

(** X2: removing an entry revokes its URL twice (in the updater, then in
    the effect clean-up), and revokes once the URL of every entry that stays
    in the registry. *)
Theorem remove_revokes_removed_url_twice v st :
  consistent st → v ∈ videos st →
  ∃ st',
    dispatch randomUUID createObjectURL (Remove (id v)) st = Some st' ∧
    (v ∉ videos st') ∧
    trace st'
    = trace st ++ RevokeObjectURL (url v)
                  :: ((λ w, RevokeObjectURL (url w)) <$> videos st) ∧
    releases (url v) (trace st) + 2 ≤ releases (url v) (trace st') ∧
    (∀ w, w ∈ videos st' →
       w ∈ videos st ∧
       releases (url w) (trace st) + 1 ≤ releases (url w) (trace st')).
Proof.
  intros Hc Hin.
  destruct (remove_result (id v) st Hc) as (st' & Hfire & Hvs & _).
  pose proof (remove_trace _ _ _ Hfire (cons_volume _ Hc)) as Htr.
  rewrite (find_by_id _ _ (cons_nodup _ Hc) Hin) in Htr. simpl in Htr.
  exists st'. split_and!; [done| |done| |].
  - rewrite Hvs. intros [Hne _]%list_elem_of_filter. by apply Hne.
  - rewrite Htr, releases_app.
    change (RevokeObjectURL (url v) :: revocations (videos st))
      with ([RevokeObjectURL (url v)] ++ revocations (videos st)).
    rewrite releases_app.
    pose proof (releases_revocations (url v) _ v Hin eq_refl).
    assert (releases (url v) [RevokeObjectURL (url v)] = 1) as ->; [|lia].
    unfold releases. by rewrite filter_cons_True.
  - intros w Hw. rewrite Hvs in Hw. apply list_elem_of_filter in Hw as [_ Hw].
    split; [done|]. rewrite Htr, releases_app.
    change (RevokeObjectURL (url v) :: revocations (videos st))
      with ([RevokeObjectURL (url v)] ++ revocations (videos st)).
    rewrite releases_app.
    pose proof (releases_revocations (url w) _ w Hw eq_refl). lia.
Qed.

(** X3: unmounting a consistent page empties the binding table and the
    list of mounted children and revokes the URL of every entry of the
    registry, one call per entry in registry order. *)
Theorem unmount_revokes_every_url st :
  consistent st →
  ∃ st',
    unmount st = Some st' ∧
    videoRefs st' = [] ∧
    mounted st' = [] ∧
    trace st' = trace st ++ ((λ v, RevokeObjectURL (url v)) <$> videos st).
Proof.
  intros Hc. unfold unmount. rewrite forEach_detach. cbn [mbind option_bind].
  rewrite videos_cleanup_eq. eexists. split; [done|]. simpl.
  split_and!; [|done|done].
  apply detach_all_nil. intros p. rewrite (cons_refs _ Hc).
  apply list_elem_of_fmap_2.
Qed.

(** ** Commits that render the same children *)

Lemma committed_same_children vc st s :
  consistent st →
  videos s = videos st → videoRefs s = videoRefs st →
  mounted s = mounted st → heap s = heap st →
  valid_volume (globalVolume s) = true →
  consistent (committed vc st s) ∧
  videoRefs (committed vc st s) = videoRefs st ∧
  mounted (committed vc st s) = mounted st.
Proof.
  intros Hc Hvs Hrefs Hm Hh Hv.
  assert (∀ p, p ∈ videoRefs s → p.1 ∈ (mounted s).*1) as Hsub.
  { intros p. rewrite Hrefs, Hm, (cons_refs _ Hc). apply list_elem_of_fmap_2. }
  assert (mounted (committed vc st s) = mounted st) as Hm'.
  { unfold committed. cbn [mounted]. rewrite Hvs, Hm.
    apply reconcile_same, (cons_keys _ Hc). }
  split_and!; [| |done].
  - apply committed_consistent; [rewrite Hvs; apply (cons_nodup _ Hc)|done| |done].
    rewrite Hm, Hh. exact (consistent_valid_refs st Hc).
  - rewrite committed_table, Hm', (cons_refs _ Hc) by done.
    apply attach_all_fresh. simpl. rewrite (cons_keys _ Hc).
    apply (cons_nodup _ Hc).
Qed.

(** ** Mute *)

(** X4: the mute button negates [isMuted] and leaves every bound element
    with the new flag and the global volume; the registry, the binding
    table, the volume, the transport state and the trace are unchanged. *)
Theorem mute_toggle_reaches_every_handle st :
  consistent st →
  ∃ st',
    dispatch randomUUID createObjectURL ToggleMute st = Some st' ∧
    isMuted st' = negb (isMuted st) ∧
    globalVolume st' = globalVolume st ∧
    isPlaying st' = isPlaying st ∧
    videos st' = videos st ∧
    videoRefs st' = videoRefs st ∧
    trace st' = trace st ∧
    (∀ k e, (k, e) ∈ videoRefs st' →
       ∃ el, heap st' !! e = Some el ∧
             muted el = negb (isMuted st) ∧ volume el = globalVolume st).
Proof.
  intros Hc. pose proof (cons_volume _ Hc) as Hv.
  destruct (committed_same_children false st (toggleMute st) Hc)
    as (Hc' & Hrefs & _); try done.
  eexists. split; [by apply fire_mute|]. split_and!; try done.
  intros k e Hin.
  destruct (consistent_bound_in_sync _ _ _ Hc' Hin) as (el & Hel & Hvol & Hmu).
  by exists el.
Qed.

(** ** Pause, then play *)

Lemma toggle_from_paused rejected st :
  consistent st → isPlaying st = false →
  ∃ st',
    fire (TogglePlayPause rejected) st = Some st' ∧
    isPlaying st' = true ∧
    trace st' = trace st
                ++ ((λ p, Play p.2) <$> videoRefs st)
                ++ ((λ p, ConsoleError p.2)
                      <$> filter (λ p, rejected p.2 = true) (videoRefs st)) ∧
    videos st' = videos st ∧
    videoRefs st' = videoRefs st.
Proof.
  intros Hc Hp. pose proof (cons_volume _ Hc) as Hv.
  destruct (committed_same_children false st (togglePlayPause st) Hc)
    as (_ & Hrefs & _); try (by rewrite togglePlayPause_eq).
  eexists. split; [by apply fire_toggle|].
  cbn zeta. rewrite Hp, play_rejections_eq. cbn [isPlaying trace videos videoRefs].
  rewrite Hrefs. rewrite togglePlayPause_eq, Hp.
  unfold committed. simpl. split_and!; try done. by rewrite <- app_assoc.
Qed.

(** X5: from Playing, Pause All followed by Play All brings [isPlaying]
    back to [true] with the same registry and binding table; the calls made
    are one [pause()] per bound element, then one [play()] per bound
    element, then one [console.error] per rejected [play()]. *)
Theorem pause_then_play_round_trip rejected0 rejected st :
  consistent st → isPlaying st = true →
  ∃ st1 st2,
    dispatch randomUUID createObjectURL (TogglePlayPause rejected0) st = Some st1 ∧
    dispatch randomUUID createObjectURL (TogglePlayPause rejected) st1 = Some st2 ∧
    isPlaying st1 = false ∧ isPlaying st2 = true ∧
    videos st2 = videos st ∧ videoRefs st2 = videoRefs st ∧
    trace st2
    = trace st
      ++ ((λ p, Pause p.2) <$> videoRefs st)
      ++ ((λ p, Play p.2) <$> videoRefs st)
      ++ ((λ p, ConsoleError p.2)
            <$> filter (λ p, rejected p.2 = true) (videoRefs st)).
Proof.
  intros Hc Hp. pose proof (cons_volume _ Hc) as Hv.
  pose proof (fire_toggle rejected0 st Hv) as Hfire1.
  cbn zeta in Hfire1. rewrite Hp in Hfire1.
  set (st1 := committed false st (togglePlayPause st)) in *.
  destruct (committed_same_children false st (togglePlayPause st) Hc)
    as (Hc1 & Hrefs1 & _); try (by rewrite togglePlayPause_eq).
  fold st1 in Hc1, Hrefs1.
  assert (isPlaying st1 = false) as Hp1.
  { unfold st1, committed. simpl. by rewrite Hp. }
  assert (trace st1 = trace st ++ ((λ p, Pause p.2) <$> videoRefs st)) as Htr1.
  { unfold st1. rewrite togglePlayPause_eq, Hp. done. }
  destruct (toggle_from_paused rejected st1)
    as (st2 & Hfire2 & Hp2 & Htr2 & Hvs2 & Hrefs2); [done|done|].
  exists st1, st2. split_and!; try done.
  - rewrite Hvs2. unfold st1. by rewrite togglePlayPause_eq.
  - by rewrite Hrefs2.
  - rewrite Htr2, Htr1, Hrefs1. by rewrite <- !app_assoc.
Qed.

(** ** A volume the DOM refuses *)

(** X6: a number outside [0, 1] (or NaN) is not clamped.  With no entry in
    the registry it is stored as it is; with at least one entry the commit
    raises when the first element is given that volume. *)
Theorem volume_out_of_range_raises v st :
  consistent st → valid_volume v = false →
  (videos st ≠ [] →
     dispatch randomUUID createObjectURL (VolumeChange v) st = None) ∧
  (videos st = [] →
     ∃ st', dispatch randomUUID createObjectURL (VolumeChange v) st = Some st' ∧
            globalVolume st' = v ∧ videos st' = []).
Proof.
  intros Hc Hv. pose proof (cons_volume _ Hc) as Hg.
  assert (Leibniz.eqb v (globalVolume st) = false) as Hne.
  { destruct (Leibniz.eqb v (globalVolume st)) eqn:Heq; [|done].
    apply Leibniz.eqb_spec in Heq. congruence. }
  split; intros Hvs; cbn [dispatch]; rewrite Hne.
  - unfold commit. rewrite forEach_detach. cbn [mbind option_bind].
    cbn [videos mounted heap setGlobalVolume set_videoRefs].
    pose proof (reconcile_same (videos st) (mounted st) (heap st) (cons_keys _ Hc))
      as Hr.
    destruct (reconcile (videos st) (mounted st) (heap st)) as [kids h].
    simpl in Hr. subst kids. cbn [fst snd].
    destruct (mounted st) as [|p kids] eqn:Hm.
    + pose proof (cons_keys _ Hc) as Hk. rewrite Hm in Hk.
      destruct (videos st); done.
    + cbn [forEach]. unfold setVideoRef, write_volume.
      cbn [globalVolume set_heap set_mounted set_videoRefs setGlobalVolume].
      by rewrite Hv.
  - pose proof (cons_keys _ Hc) as Hk. pose proof (cons_refs _ Hc) as Hr.
    destruct st as [vs gv m pl table kids h n tr]. simpl in *. subst vs.
    destruct kids; [|done]. subst table.
    unfold commit. simpl. unfold unchanged_control. simpl.
    destruct (Leibniz.eqb gv v && eqb m m); eexists; (split; [done|done]).
Qed.

(** ** Removing two entries *)

Lemma filter_comm {A} (P Q : A → Prop) `{!∀ x, Decision (P x)} `{!∀ x, Decision (Q x)}
    (l : list A) :
  filter P (filter Q l) = filter Q (filter P l).
Proof.
  induction l as [|x l IH]; [done|]. rewrite !filter_cons.
  destruct (decide (Q x)), (decide (P x)); rewrite ?filter_cons;
    repeat case_decide; try done; by rewrite IH.
Qed.

(** X7: removing two entries yields the same registry and the same binding
    table in either order. *)
Theorem remove_commutes i j st :
  consistent st →
  ∃ si sij sj sji,
    dispatch randomUUID createObjectURL (Remove i) st = Some si ∧
    dispatch randomUUID createObjectURL (Remove j) si = Some sij ∧
    dispatch randomUUID createObjectURL (Remove j) st = Some sj ∧
    dispatch randomUUID createObjectURL (Remove i) sj = Some sji ∧
    videos sij = videos sji ∧
    videoRefs sij = videoRefs sji.
Proof.
  intros Hc.
  destruct (remove_result i st Hc) as (si & Hi & Hvi & Hri & Hci).
  destruct (remove_result j si Hci) as (sij & Hij & Hvij & Hrij & _).
  destruct (remove_result j st Hc) as (sj & Hj & Hvj & Hrj & Hcj).
  destruct (remove_result i sj Hcj) as (sji & Hji & Hvji & Hrji & _).
  exists si, sij, sj, sji. split_and!; try done.
  - rewrite Hvij, Hvi, Hvji, Hvj. apply filter_comm.
  - rewrite Hrij, Hri, Hrji, Hrj. unfold Map_delete. apply filter_comm.
Qed.

(** ** What holds of every reachable state *)

(** X8: in every state reached from the first render by deliverable events,
    provided [randomUUID] never repeats an identifier: the ids of the
    registry are pairwise different, the keys of the binding table are the
    ids of the registry in registry order, [globalVolume] is in [0, 1], and
    every bound element has the global volume and mute flag. *)
Theorem reachable_states_are_consistent evs st :
  (∀ m n, randomUUID m = randomUUID n → m = n) →
  Forall deliverable evs →
  run randomUUID createObjectURL evs mount = Some st →
  NoDup (id <$> videos st) ∧
  fst <$> videoRefs st = id <$> videos st ∧
  valid_volume (globalVolume st) = true ∧
  (∀ k e, (k, e) ∈ videoRefs st →
     ∃ el, heap st !! e = Some el ∧
           volume el = globalVolume st ∧ muted el = isMuted st).
Proof.
  intros Hinj Hevs Hrun.
  pose proof (reachable_consistent Hinj evs st Hevs Hrun) as Hc.
  split_and!.
  - apply (cons_nodup _ Hc).
  - rewrite (cons_refs _ Hc). apply (cons_keys _ Hc).
  - apply (cons_volume _ Hc).
  - intros k e Hin. apply (consistent_bound_in_sync _ _ _ Hc Hin).
Qed.

(** ** Each entry keeps its element *)

Lemma write_src_id e u (h : list HTMLVideoElement) el :
  h !! e = Some el → src el = u → write_src e u h = h.
Proof.
  intros Hel Hu. unfold write_src. apply list_eq. intros j.
  destruct (decide (e = j)) as [<-|Hne].
  - rewrite list_lookup_alter_eq, Hel. simpl. destruct el. simpl in *. by subst.
  - by rewrite list_lookup_alter_ne.
Qed.

Lemma reconcile_wired_same vs old h :
  Forall2 (plays h) vs old → reconcile vs old h = (old, h).
Proof.
  induction 1 as [|v [k e] vs old [Hk (el & Hel & Hsrc)] _ IH]; [done|].
  simpl in Hk, Hel. subst k. cbn [reconcile]. rewrite take_key_head.
  cbn zeta. rewrite (write_src_id _ _ _ _ Hel Hsrc), IH. done.
Qed.

Lemma reconcile_wired_filter i vs old h :
  Forall2 (plays h) vs old →
  reconcile (filter (λ v, id v ≠ i) vs) old h = (Map_delete i old, h).
Proof.
  unfold Map_delete.
  induction 1 as [|v [k e] vs old [Hk (el & Hel & Hsrc)] _ IH]; [done|].
  simpl in Hk, Hel. subst k. rewrite !filter_cons. simpl.
  destruct (decide (id v ≠ i)) as [Hne|Heq].
  - cbn [reconcile]. rewrite take_key_head. cbn zeta.
    rewrite (write_src_id _ _ _ _ Hel Hsrc), IH. done.
  - assert (id v = i) as Hi by (destruct (decide (id v = i)); tauto).
    rewrite reconcile_skip; [done|]. rewrite Hi. apply filter_key_gone.
Qed.

Lemma reconcile_fresh news h :
  reconcile news [] h
  = (fresh_children h news, h ++ ((λ v, new_element (url v)) <$> news)).
Proof.
  unfold fresh_children. revert h.
  induction news as [|v news IH]; intros h.
  - simpl. by rewrite app_nil_r.
  - cbn [reconcile take_key]. rewrite IH. cbn [fst snd].
    rewrite imap_cons, fmap_cons, Nat.add_0_r, <- app_assoc. f_equal. f_equal.
    apply imap_ext. intros n w _. simpl. rewrite length_app. simpl.
    f_equal. lia.
Qed.

Lemma reconcile_wired_app vs news old h :
  Forall2 (plays h) vs old →
  reconcile (vs ++ news) old h
  = (old ++ fresh_children h news, h ++ ((λ v, new_element (url v)) <$> news)).
Proof.
  induction 1 as [|v [k e] vs old [Hk (el & Hel & Hsrc)] _ IH].
  - apply reconcile_fresh.
  - simpl in Hk, Hel. subst k. rewrite <- app_comm_cons. cbn [reconcile].
    rewrite take_key_head. cbn zeta.
    rewrite (write_src_id _ _ _ _ Hel Hsrc), IH. done.
Qed.

Lemma plays_app h k v p : plays h v p → plays (h ++ k) v p.
Proof.
  intros [Hk (el & Hel & Hsrc)]. split; [done|]. exists el.
  split; [by apply lookup_app_l_Some|done].
Qed.

Lemma plays_sync_all vol m l h v p :
  plays h v p → plays (sync_all vol m l h) v p.
Proof.
  revert h. induction l as [|q l IH]; intros h Hp; [done|].
  change (sync_all vol m (q :: l) h)
    with (sync_all vol m l (alter (sync vol m) q.2 h)).
  apply IH. destruct Hp as [Hk (el & Hel & Hsrc)]. split; [done|].
  destruct (decide (q.2 = p.2)) as [Heq|Hne].
  - exists (sync vol m el). by rewrite Heq, list_lookup_alter_eq, Hel.
  - exists el. by rewrite list_lookup_alter_ne.
Qed.

Lemma plays_fresh h news :
  Forall2 (plays (h ++ ((λ v, new_element (url v)) <$> news)))
          news (fresh_children h news).
Proof.
  unfold fresh_children. apply Forall2_same_length_lookup_2.
  - by rewrite length_imap.
  - intros n v p Hv. rewrite list_lookup_imap, Hv. intros [= <-].
    split; [done|]. exists (new_element (url v)). split; [|done]. simpl.
    rewrite lookup_app_r by lia.
    replace (length h + n - length h) with n by lia.
    by rewrite list_lookup_fmap, Hv.
Qed.

Lemma plays_filter i h vs old :
  Forall2 (plays h) vs old →
  Forall2 (plays h) (filter (λ v, id v ≠ i) vs) (Map_delete i old).
Proof.
  unfold Map_delete. induction 1 as [|v p vs old Hp _ IH]; [constructor|].
  rewrite !filter_cons. destruct Hp as [Hk Hel].
  destruct (decide (id v ≠ i)) as [Hne|Heq].
  - rewrite decide_True by (by rewrite Hk). by constructor.
  - rewrite decide_False by (by rewrite Hk). done.
Qed.

(** A commit whose reconciliation gives children that play their entries
    leaves the page wired. *)
Lemma committed_wired vc prev s kids h :
  reconcile (videos s) (mounted s) (heap s) = (kids, h) →
  Forall2 (plays h) (videos s) kids →
  wired (committed vc prev s).
Proof.
  intros Hr Hp. unfold wired, committed. cbn [videos mounted heap].
  rewrite Hr. cbn [fst snd].
  eapply Forall2_impl; [exact Hp|]. intros v p Hvp.
  destruct (unchanged_control prev s); repeat apply plays_sync_all; done.
Qed.

Lemma fire_wired ev st st' :
  consistent st → wired st → deliverable ev →
  fire ev st = Some st' → wired st'.
Proof.
  intros Hc Hw Hd Hfire. pose proof (cons_volume _ Hc) as Hv.
  unfold wired in Hw.
  destruct ev as [files|i| | |v|rejected].
  - rewrite fire_drop in Hfire by done. injection Hfire as <-.
    eapply committed_wired.
    + unfold handleDrop. cbn [videos mounted heap setVideos set_created].
      by apply reconcile_wired_app.
    + unfold handleDrop. cbn [videos setVideos set_created].
      apply Forall2_app; [|apply plays_fresh].
      eapply Forall2_impl; [exact Hw|]. intros w p. apply plays_app.
  - rewrite fire_remove in Hfire by done. injection Hfire as <-.
    destruct (removeVideo_fields i st) as (Hvs & _ & Hm & Hh & _).
    eapply committed_wired.
    + rewrite Hvs, Hm, Hh. by apply reconcile_wired_filter.
    + rewrite Hvs. by apply plays_filter.
  - rewrite fire_clear in Hfire. injection Hfire as <-.
    eapply committed_wired; [done|constructor].
  - rewrite fire_mute in Hfire by done. injection Hfire as <-.
    eapply committed_wired; [by apply reconcile_wired_same|done].
  - rewrite fire_volume in Hfire by done. injection Hfire as <-.
    destruct (Leibniz.eqb v (globalVolume st)); [done|].
    eapply committed_wired; [by apply reconcile_wired_same|done].
  - rewrite fire_toggle in Hfire by done. injection Hfire as <-. cbn zeta.
    assert (wired (committed false st (togglePlayPause st))) as Hw'.
    { rewrite togglePlayPause_eq.
      eapply committed_wired; [by apply reconcile_wired_same|done]. }
    destruct (isPlaying st); [done|]. by rewrite play_rejections_eq.
Qed.

Lemma reachable_invariant evs st :
  (∀ m n, randomUUID m = randomUUID n → m = n) →
  Forall deliverable evs →
  run randomUUID createObjectURL evs mount = Some st →
  consistent st ∧ issued randomUUID st ∧ wired st.
Proof.
  intros Hinj Hevs Hrun.
  assert (∀ s, consistent s → issued randomUUID s → wired s →
               run randomUUID createObjectURL evs s = Some st →
               consistent st ∧ issued randomUUID st ∧ wired st) as H.
  { clear Hrun. induction Hevs as [|ev evs Hev _ IH]; intros s Hc Hi Hw; simpl.
    - by intros [= <-].
    - destruct (fire ev s) as [s'|] eqn:Hfire; simpl; [|done].
      destruct (fire_consistent Hinj ev s s' Hc Hi Hev Hfire).
      pose proof (fire_wired ev s s' Hc Hw Hev Hfire). by apply IH. }
  apply (H mount); [apply mount_consistent|constructor|constructor|done].
Qed.

(** X9: in every reachable state the n-th entry of the registry is bound,
    at position n of the binding table and under its own id, to an element
    whose [src] is the URL of that entry. *)
Theorem reachable_entries_are_bound_to_their_url evs st :
  (∀ m n, randomUUID m = randomUUID n → m = n) →
  Forall deliverable evs →
  run randomUUID createObjectURL evs mount = Some st →
  ∀ n v, videos st !! n = Some v →
    ∃ e el, videoRefs st !! n = Some (id v, e) ∧
            heap st !! e = Some el ∧ src el = url v.
Proof.
  intros Hinj Hevs Hrun n v Hn.
  destruct (reachable_invariant evs st Hinj Hevs Hrun) as (Hc & _ & Hw).
  destruct (Forall2_lookup_l _ _ _ _ _ Hw Hn) as ([k e] & Hp & Hk & el & Hel & Hsrc).
  simpl in Hk, Hel. subst k. exists e, el. by rewrite (cons_refs _ Hc).
Qed.

(** X10: a drop on a reachable page does not remount anything: every
    binding of the table stays as it is, and each new entry is bound, after
    them and in drop order, to a newly created element. *)
Theorem drop_keeps_existing_bindings evs st files :
  (∀ m n, randomUUID m = randomUUID n → m = n) →
  Forall deliverable evs →
  run randomUUID createObjectURL evs mount = Some st →
  ∃ st' news,
    dispatch randomUUID createObjectURL (DropFiles files) st = Some st' ∧
    videos st' = videos st ++ news ∧
    videoRefs st' = videoRefs st ++ fresh_children (heap st) news ∧
    length (heap st') = length (heap st) + length news.
Proof.
  intros Hinj Hevs Hrun.
  destruct (reachable_invariant evs st Hinj Hevs Hrun) as (Hc & Hi & Hw).
  pose proof (cons_volume _ Hc) as Hv.
  eexists _, _. split; [by apply fire_drop|].
  set (s := handleDrop randomUUID createObjectURL files st).
  assert (∀ p, p ∈ videoRefs s → p.1 ∈ (mounted s).*1) as Hsub.
  { intros p. unfold s. simpl. rewrite (cons_refs _ Hc). apply list_elem_of_fmap_2. }
  pose proof (handleDrop_ids_NoDup Hinj files st Hc Hi) as Hnd. fold s in Hnd.
  split; [done|].
  assert (reconcile (videos s) (mounted s) (heap s)
          = (mounted st ++ fresh_children (heap st) (drop (length (videos st)) (videos s)),
             heap st ++ ((λ v, new_element (url v))
                           <$> drop (length (videos st)) (videos s)))) as Hr.
  { unfold s, handleDrop. cbn [videos mounted heap setVideos set_created].
    rewrite drop_app_length. by apply reconcile_wired_app. }
  assert (drop (length (videos st)) (videos s)
          = imap (λ n file, mkVideo (randomUUID (created st + n))
                                    (createObjectURL (created st + n) file))
              (filter (λ file, String.prefix "video/" (type file) = true) files))
    as Hnews.
  { unfold s, handleDrop. cbn [videos setVideos set_created].
    by rewrite drop_app_length. }
  rewrite Hnews in Hr. split.
  - rewrite committed_table by done. unfold committed. cbn [mounted].
    rewrite Hr. cbn [fst]. rewrite (cons_refs _ Hc).
    rewrite (attach_all_fresh _ []); [done|]. simpl.
    pose proof (reconcile_keys (videos s) (mounted s) (heap s)) as Hk.
    rewrite Hr in Hk. cbn [fst] in Hk. by rewrite Hk.
  - unfold committed. cbn [heap]. rewrite Hr. cbn [fst snd].
    destruct (unchanged_control st s); rewrite !length_sync_all, length_app,
      length_fmap; done.
Qed.

(** ** Removing an unknown id *)

(** X11: removing an id that is not in the registry leaves the registry and
    the binding table as they are, and still revokes the URL of every entry
    of the registry. *)
Theorem remove_unknown_id_revokes_every_url i st :
  consistent st → i ∉ id <$> videos st →
  ∃ st',
    dispatch randomUUID createObjectURL (Remove i) st = Some st' ∧
    videos st' = videos st ∧
    videoRefs st' = videoRefs st ∧
    trace st' = trace st ++ ((λ v, RevokeObjectURL (url v)) <$> videos st).
Proof.
  intros Hc Hout.
  destruct (remove_result i st Hc) as (st' & Hfire & Hvs & Hrefs & _).
  pose proof (remove_trace _ _ _ Hfire (cons_volume _ Hc)) as Htr.
  exists st'. split_and!; [done| | |].
  - rewrite Hvs. by apply filter_key_absent.
  - rewrite Hrefs. unfold Map_delete. apply (filter_key_absent fst).
    by rewrite (cons_refs _ Hc), (cons_keys _ Hc).
  - destruct (List.find _ _) as [w|] eqn:Hfind; [|done].
    apply find_some in Hfind as [Hw Hid]. apply bool_decide_eq_true in Hid.
    exfalso. apply Hout. rewrite <- Hid. apply list_elem_of_fmap_2.
    by apply list_elem_of_In.
Qed.

(** ** Binding and unbinding one element *)

Lemma Map_set_keys k e (table : list (string * nat)) :
  k ∈ table.*1 → (Map_set k e table).*1 = table.*1.
Proof.
  induction table as [|p table IH]; [by intros ?%elem_of_nil|].
  rewrite fmap_cons. intros Hin. cbn [Map_set].
  case_decide as Hp; rewrite fmap_cons; [by rewrite Hp|].
  apply elem_of_cons in Hin as [?|Hin]; [done|]. by rewrite IH.
Qed.

Lemma Map_set_NoDup k e (table : list (string * nat)) :
  NoDup table.*1 → NoDup (Map_set k e table).*1.
Proof.
  intros Hnd. destruct (decide (k ∈ table.*1)) as [Hin|Hout].
  - by rewrite Map_set_keys.
  - rewrite Map_set_fresh, fmap_app by done. apply NoDup_app. split_and!.
    + done.
    + intros x Hx [->|[]%elem_of_nil]%elem_of_cons. done.
    + apply NoDup_singleton.
Qed.

Lemma Map_set_lookup k e (table : list (string * nat)) p :
  NoDup table.*1 →
  p ∈ Map_set k e table ↔ p = (k, e) ∨ (p.1 ≠ k ∧ p ∈ table).
Proof.
  induction table as [|q table IH]; simpl; intros Hnd.
  - rewrite list_elem_of_singleton. split; [by left|].
    intros [?|[_ []%elem_of_nil]]. done.
  - apply NoDup_cons in Hnd as [Hq Hnd]. case_decide as Hk.
    + rewrite !elem_of_cons. split.
      * intros [->|Hin]; [by left|]. right. split; [|by right].
        intros Hp. apply Hq. rewrite Hk, <- Hp. by apply list_elem_of_fmap_2.
      * intros [->|[Hne [->|Hin]]]; [by left|done|by right].
    + rewrite !elem_of_cons, IH by done. split.
      * intros [->|[->|[Hne Hin]]]; [right; split; [done|by left]|by left|].
        right. split; [done|by right].
      * intros [->|[Hne [->|Hin]]]; [right; by left|by left|].
        right. right. done.
Qed.

Lemma Map_delete_set k e (table : list (string * nat)) :
  Map_delete k (Map_set k e table) = Map_delete k table.
Proof.
  unfold Map_delete. induction table as [|p table IH]; simpl.
  - by rewrite filter_cons_False by (intros H; by apply H).
  - case_decide as Hk.
    + rewrite !filter_cons. rewrite decide_False by (intros H; by apply H).
      by rewrite decide_False by (intros H; by apply H).
    + by rewrite !filter_cons, IH.
Qed.

(** X12: [setVideoRef(element, id)] leaves the table with one binding per
    id: the binding of [id] is the given element, the bindings of the other
    ids are untouched; a following [setVideoRef(null, id)] takes exactly
    the binding of [id] out again. *)
Theorem setVideoRef_keeps_one_binding_per_id e i st :
  valid_volume (globalVolume st) = true →
  NoDup (fst <$> videoRefs st) →
  ∃ s1 s2,
    setVideoRef (Some e) i st = Some s1 ∧
    NoDup (fst <$> videoRefs s1) ∧
    (∀ e', (i, e') ∈ videoRefs s1 ↔ e' = e) ∧
    (∀ k e', k ≠ i → (k, e') ∈ videoRefs s1 ↔ (k, e') ∈ videoRefs st) ∧
    setVideoRef None i s1 = Some s2 ∧
    videoRefs s2 = Map_delete i (videoRefs st) ∧
    (i ∉ fst <$> videoRefs s2).
Proof.
  intros Hv Hnd. eexists _, _. split; [by apply setVideoRef_Some|].
  cbn [setVideoRef videoRefs set_videoRefs set_heap].
  split_and!; [by apply Map_set_NoDup| | |done| |].
  - intros e'. rewrite Map_set_lookup by done. simpl. split.
    + intros [[= ->]|[Hne _]]; done.
    + intros ->. by left.
  - intros k e' Hne. rewrite Map_set_lookup by done. simpl. split.
    + intros [[= -> _]|[_ Hin]]; done.
    + intros Hin. by right.
  - apply Map_delete_set.
  - rewrite Map_delete_set. apply (filter_key_gone fst).
Qed.

(** ** The highlight of the drop zone *)

Lemma classList_remove_absent c (l : list string) :
  c ∉ l → classList_remove c l = l.
Proof.
  intros Hc. unfold classList_remove. induction l as [|x l IH]; [done|].
  apply not_elem_of_cons in Hc as [Hne Hc].
  rewrite filter_cons_True by done. by rewrite IH.
Qed.

Lemma classList_remove_added c (l : list string) :
  c ∉ l → classList_remove c (l ++ [c]) = l.
Proof.
  intros Hc. unfold classList_remove. rewrite filter_app.
  fold (classList_remove c l). rewrite classList_remove_absent by done.
  rewrite filter_cons_False by (intros H; by apply H). by rewrite app_nil_r.
Qed.

(** X13: on a drop zone whose class list does not hold the highlight class,
    after any sequence of drag-over, drag-leave and drop events the class
    list is the original one, followed by ["bg-white/10"] exactly when the
    last event was a drag-over; with no element ([null]) nothing happens. *)
Theorem drag_highlight_follows_last_event evs (l : list string) :
  "bg-white/10" ∉ l →
  drags evs (Some l)
  = Some (match last evs with
          | Some DragOver => l ++ ["bg-white/10"]
          | _ => l
          end) ∧
  drags evs None = None.
Proof.
  intros Hl. unfold drags. induction evs as [|ev evs [IH1 IH2]] using rev_ind.
  - done.
  - rewrite !foldl_app, last_snoc, IH1, IH2. simpl. split; [|by destruct ev].
    destruct (last evs) as [[]|]; destruct ev; simpl;
      unfold classList_add;
      rewrite ?classList_remove_added, ?classList_remove_absent by done;
      try (rewrite decide_False by done); try done.
    rewrite decide_True; [done|]. apply elem_of_app. right.
    apply list_elem_of_here.
Qed.

End Page.

(** * The page on concrete inputs *)


Lemma uuid_of_nat_inj m n : uuid_of_nat m = uuid_of_nat n → m = n.
Proof.
  unfold uuid_of_nat. simpl. intros [= H].
  change (pretty m = pretty n) in H. by apply (inj pretty) in H.
Qed.


Lemma stage_reached : demo_run [DropFiles [clip_a; notes; clip_c]] mount = Some stage.
Proof. by vm_compute. Qed.

Lemma stage_consistent : consistent stage.
Proof.
  apply (reachable_consistent uuid_of_nat blob_of_nat uuid_of_nat_inj
           [DropFiles [clip_a; notes; clip_c]]).
  - by repeat constructor.
  - apply stage_reached.
Qed.


(** ** Releases of a source reference *)


(** C1 at a failing input: one clip is dropped and then removed.  Its URL
    is revoked by the updater of [removeVideo] and again by the clean-up of
    the [videos] effect, which runs at every change of [videos] and not only
    at unmount. *)
Theorem removed_entry_is_released_twice :
  ∃ st,
    demo_run [DropFiles [clip_a]; Remove "id0"] mount = Some st ∧
    videos st = [] ∧
    trace st = [RevokeObjectURL "blob:0"; RevokeObjectURL "blob:0"] ∧
    releases "blob:0" (trace st) = 2.
Proof. eexists. split; [by vm_compute|]. by vm_compute. Qed.

(** The same clean-up revokes the URL of an entry that stays in the
    registry, at the next drop. *)
Example held_entry_is_released_by_next_drop :
  ∃ st,
    demo_run [DropFiles [clip_a]; DropFiles [clip_c]] mount = Some st ∧
    videos st = [mkVideo "id0" "blob:0"; mkVideo "id1" "blob:1"] ∧
    releases "blob:0" (trace st) = 1.
Proof. eexists. split; [by vm_compute|]. by vm_compute. Qed.

(** After that, unmounting the page revokes it a second time. *)
Example held_entry_is_released_again_at_unmount :
  ∃ st,
    (demo_run [DropFiles [clip_a]; DropFiles [clip_c]] mount ≫= unmount) = Some st ∧
    releases "blob:0" (trace st) = 2 ∧
    releases "blob:1" (trace st) = 1.
Proof. eexists. split; [by vm_compute|]. by vm_compute. Qed.

(** C6 at a failing input: two clips (and a text file) are dropped, then
    the first clip is removed.  The second entry stays in the registry, with
    its id, its URL string and its binding, but its source reference does
    not stay as it was: its URL is revoked by the clean-up of the [videos]
    effect.  Removing an id that is not in the registry does the same to
    both entries. *)
Theorem remove_releases_the_entries_that_stay :
  ∃ st st',
    demo_run [DropFiles [clip_a; notes; clip_c]] mount = Some st ∧
    demo (Remove "id0") st = Some st' ∧
    videos st = [mkVideo "id0" "blob:0"; mkVideo "id1" "blob:1"] ∧
    videos st' = [mkVideo "id1" "blob:1"] ∧
    videoRefs st' = [("id1", 1)] ∧
    releases "blob:1" (trace st) = 0 ∧
    releases "blob:1" (trace st') = 1 ∧
    (∃ st'', demo (Remove "id7") st = Some st'' ∧
             videos st'' = videos st ∧
             releases "blob:0" (trace st'') = 1 ∧
             releases "blob:1" (trace st'') = 1).
Proof.
  eexists _, _. split; [by vm_compute|]. split; [by vm_compute|].
  split_and!; try by vm_compute.
  eexists. split; [by vm_compute|]. by vm_compute.
Qed.

(** C10 at a failing input: two clips (and a text file) are dropped, then
    one more clip.  The second drop leaves [globalVolume], [isMuted] and
    [isPlaying] as they were and keeps the two entries at their positions
    with their ids and URL strings, but it does not keep their source
    references: both URLs are revoked by the clean-up of the [videos]
    effect while the entries stay in the registry. *)
Theorem drop_releases_the_entries_already_held :
  ∃ st st',
    demo_run [DropFiles [clip_a; notes; clip_c]] mount = Some st ∧
    demo (DropFiles [clip_a]) st = Some st' ∧
    globalVolume st' = globalVolume st ∧
    isMuted st' = isMuted st ∧
    isPlaying st' = isPlaying st ∧
    videos st' = videos st ++ [mkVideo "id2" "blob:2"] ∧
    releases "blob:0" (trace st) = 0 ∧
    releases "blob:1" (trace st) = 0 ∧
    releases "blob:0" (trace st') = 1 ∧
    releases "blob:1" (trace st') = 1.
Proof.
  eexists _, _. split; [by vm_compute|]. split; [by vm_compute|].
  split_and!; by vm_compute.
Qed.

(** ** Volume outside the range *)

(** C7 as stated fails: nothing clamps.  On the empty page the value 1.5 is
    stored as it is, and it is not in [0, 1]. *)
Lemma volume_above_one_is_stored_unclamped :
  demo (VolumeChange 1.5%float) mount = Some (setGlobalVolume 1.5%float mount) ∧
  globalVolume (setGlobalVolume 1.5%float mount) = 1.5%float ∧
  valid_volume (globalVolume (setGlobalVolume 1.5%float mount)) = false.
Proof. by vm_compute. Qed.

(** With an element bound, the DOM refuses the write and the commit ends in
    an exception. *)
Example volume_above_one_with_a_bound_element :
  demo (VolumeChange 1.5%float) stage = None.
Proof. by vm_compute. Qed.

(** ** The scenario of the specification *)

Example three_clips_volume_remove_second :
  ∃ st,
    demo_run [DropFiles [clip_a; notes; clip_c; clip_a];
              VolumeChange 0.75%float;
              Remove "id1"] mount = Some st ∧
    videos st = [mkVideo "id0" "blob:0"; mkVideo "id2" "blob:2"] ∧
    videoRefs st = [("id0", 0); ("id2", 2)] ∧
    volume <$> heap st = [0.75%float; 0.75%float; 0.75%float].
Proof. eexists. split; [by vm_compute|]. by vm_compute. Qed.

(** ** The theorems at the staged page *)

Lemma drop_appends_video_files_witness :
  valid_volume (globalVolume stage) = true ∧
  ∃ st' news,
    demo (DropFiles [notes; clip_c; notes; clip_a]) stage = Some st' ∧
    videos st' = videos stage ++ news ∧
    news = [mkVideo "id2" "blob:2"; mkVideo "id3" "blob:3"].
Proof.
  split; [reflexivity|].
  destruct (drop_appends_video_files uuid_of_nat blob_of_nat
              [notes; clip_c; notes; clip_a] stage eq_refl)
    as (st' & news & Hfire & Hvs & _).
  exists st', news. split; [exact Hfire|]. split; [exact Hvs|].
  vm_compute in Hfire. injection Hfire as <-.
  by apply (app_inv_head (videos stage)).
Defined.

Lemma drop_keeps_control_state_witness :
  valid_volume (globalVolume stage) = true ∧
  ∃ st',
    demo (DropFiles [notes; clip_c]) stage = Some st' ∧
    globalVolume st' = globalVolume stage ∧
    isMuted st' = isMuted stage ∧
    isPlaying st' = isPlaying stage ∧
    (∀ n v, videos stage !! n = Some v → videos st' !! n = Some v).
Proof.
  split; [reflexivity|].
  exact (drop_keeps_control_state uuid_of_nat blob_of_nat [notes; clip_c] stage eq_refl).
Defined.

Lemma transport_is_a_two_state_toggle_witness :
  (valid_volume (globalVolume stage) = true ∧
   is_toggle ClearAll = false ∧ deliverable ClearAll) ∧
  ∃ st' st'',
    demo (TogglePlayPause (λ _, false)) stage = Some st' ∧
    isPlaying st' = false ∧
    trace st' = [Pause 0; Pause 1] ∧
    demo ClearAll stage = Some st'' ∧
    isPlaying st'' = true.
Proof.
  split; [by split_and!|].
  destruct (transport_is_a_two_state_toggle uuid_of_nat blob_of_nat
              stage (λ _, false) ClearAll eq_refl eq_refl I)
    as (_ & (st' & Hfire & Hp & Hpause & _) & (st'' & Hfire' & Hp')).
  exists st', st''. split_and!; [exact Hfire|exact Hp| |exact Hfire'|exact Hp'].
  exact (Hpause eq_refl).
Defined.

Lemma play_failures_do_not_abort_witness :
  (valid_volume (globalVolume paused_stage) = true ∧
   isPlaying paused_stage = false) ∧
  ∃ st',
    demo (TogglePlayPause (λ e, bool_decide (e = 0))) paused_stage = Some st' ∧
    isPlaying st' = true ∧
    trace st' = trace paused_stage ++ [Play 0; Play 1] ++ [ConsoleError 0].
Proof.
  split; [by split|].
  exact (play_failures_do_not_abort uuid_of_nat blob_of_nat paused_stage
           (λ e, bool_decide (e = 0)) eq_refl eq_refl).
Defined.

Lemma remove_affects_only_that_entry_witness :
  consistent stage ∧
  ∃ st',
    demo (Remove "id0") stage = Some st' ∧
    videos st' = [mkVideo "id1" "blob:1"] ∧
    videoRefs st' = [("id1", 1)].
Proof.
  split; [exact stage_consistent|].
  destruct (remove_affects_only_that_entry uuid_of_nat blob_of_nat
              "id0" stage stage_consistent) as (st' & Hfire & _).
  exists st'. split; [exact Hfire|].
  vm_compute in Hfire. injection Hfire as <-. by split.
Defined.

Lemma remove_twice_is_remove_once_witness :
  consistent stage ∧
  ∃ st1 st2,
    demo (Remove "id0") stage = Some st1 ∧
    demo (Remove "id0") st1 = Some st2 ∧
    videos st2 = videos st1 ∧
    videoRefs st2 = videoRefs st1.
Proof.
  split; [exact stage_consistent|].
  exact (remove_twice_is_remove_once uuid_of_nat blob_of_nat
           "id0" stage stage_consistent).
Defined.

Lemma volume_reaches_bound_and_later_handles_witness :
  (consistent stage ∧ valid_volume 0.25%float = true) ∧
  ∃ st' st'',
    demo (VolumeChange 0.25%float) stage = Some st' ∧
    volume <$> heap st' = [0.25%float; 0.25%float] ∧
    demo (DropFiles [clip_c]) st' = Some st'' ∧
    videoRefs st'' = [("id0", 0); ("id1", 1); ("id2", 2)] ∧
    volume <$> heap st'' = [0.25%float; 0.25%float; 0.25%float].
Proof.
  split; [split; [exact stage_consistent|reflexivity]|].
  destruct (volume_reaches_bound_and_later_handles uuid_of_nat blob_of_nat
              0.25%float stage stage_consistent eq_refl)
    as (st' & Hfire & _ & _ & Hdrop).
  destruct (Hdrop [clip_c]) as (st'' & Hfire' & _).
  exists st', st''.
  vm_compute in Hfire. injection Hfire as <-.
  vm_compute in Hfire'. injection Hfire' as <-.
  by split_and!.
Defined.

Lemma volume_in_range_is_stored_and_written_witness :
  (consistent stage ∧ valid_volume 0.25%float = true) ∧
  ∃ st',
    demo (VolumeChange 0.25%float) stage = Some st' ∧
    globalVolume st' = 0.25%float ∧
    volume <$> heap st' = [0.25%float; 0.25%float].
Proof.
  split; [split; [exact stage_consistent|reflexivity]|].
  destruct (volume_in_range_is_stored_and_written uuid_of_nat blob_of_nat
              0.25%float stage stage_consistent eq_refl)
    as (st' & Hfire & Hg & _).
  exists st'. split; [exact Hfire|]. split; [exact Hg|].
  vm_compute in Hfire. by injection Hfire as <-.
Defined.

(** ** The further properties at the staged page *)

Lemma drop_revokes_urls_still_held_witness :
  valid_volume (globalVolume stage) = true ∧
  ∃ st',
    demo (DropFiles [notes]) stage = Some st' ∧
    videos st' = videos stage ∧
    trace st' = [RevokeObjectURL "blob:0"; RevokeObjectURL "blob:1"].
Proof.
  split; [reflexivity|].
  destruct (drop_revokes_urls_still_held uuid_of_nat blob_of_nat [notes] stage eq_refl)
    as (st' & Hfire & Htr & _).
  exists st'. split; [exact Hfire|]. split; [|exact Htr].
  vm_compute in Hfire. by injection Hfire as <-.
Defined.

Lemma remove_revokes_removed_url_twice_witness :
  (consistent stage ∧ mkVideo "id0" "blob:0" ∈ videos stage) ∧
  ∃ st',
    demo (Remove "id0") stage = Some st' ∧
    trace st' = [RevokeObjectURL "blob:0"; RevokeObjectURL "blob:0";
                 RevokeObjectURL "blob:1"].
Proof.
  assert (mkVideo "id0" "blob:0" ∈ videos stage) as Hin by apply list_elem_of_here.
  split; [split; [exact stage_consistent|exact Hin]|].
  destruct (remove_revokes_removed_url_twice uuid_of_nat blob_of_nat
              (mkVideo "id0" "blob:0") stage stage_consistent Hin)
    as (st' & Hfire & _ & Htr & _).
  exists st'. split; [exact Hfire|exact Htr].
Defined.

Lemma unmount_revokes_every_url_witness :
  consistent stage ∧
  ∃ st',
    unmount stage = Some st' ∧
    videoRefs st' = [] ∧
    trace st' = [RevokeObjectURL "blob:0"; RevokeObjectURL "blob:1"].
Proof.
  split; [exact stage_consistent|].
  destruct (unmount_revokes_every_url stage stage_consistent)
    as (st' & Hun & Hrefs & _ & Htr).
  exists st'. split; [exact Hun|]. split; [exact Hrefs|exact Htr].
Defined.

Lemma mute_toggle_reaches_every_handle_witness :
  consistent stage ∧
  ∃ st',
    demo ToggleMute stage = Some st' ∧
    isMuted st' = true ∧
    muted <$> heap st' = [true; true].
Proof.
  split; [exact stage_consistent|].
  destruct (mute_toggle_reaches_every_handle uuid_of_nat blob_of_nat
              stage stage_consistent) as (st' & Hfire & Hm & _).
  exists st'. split; [exact Hfire|]. split; [exact Hm|].
  vm_compute in Hfire. by injection Hfire as <-.
Defined.

Lemma pause_then_play_round_trip_witness :
  (consistent stage ∧ isPlaying stage = true) ∧
  ∃ st1 st2,
    demo (TogglePlayPause (λ _, false)) stage = Some st1 ∧
    demo (TogglePlayPause (λ e, bool_decide (e = 1))) st1 = Some st2 ∧
    isPlaying st2 = true ∧
    trace st2 = [Pause 0; Pause 1; Play 0; Play 1; ConsoleError 1].
Proof.
  split; [split; [exact stage_consistent|reflexivity]|].
  destruct (pause_then_play_round_trip uuid_of_nat blob_of_nat
              (λ _, false) (λ e, bool_decide (e = 1)) stage
              stage_consistent eq_refl)
    as (st1 & st2 & H1 & H2 & _ & Hp & _ & _ & Htr).
  exists st1, st2. split_and!; [exact H1|exact H2|exact Hp|exact Htr].
Defined.

Lemma volume_out_of_range_raises_witness :
  (consistent stage ∧ valid_volume 1.5%float = false) ∧
  demo (VolumeChange 1.5%float) stage = None.
Proof.
  split; [split; [exact stage_consistent|reflexivity]|].
  by apply (volume_out_of_range_raises uuid_of_nat blob_of_nat
              1.5%float stage stage_consistent eq_refl).
Defined.

Lemma remove_commutes_witness :
  consistent stage ∧
  ∃ si sij sj sji,
    demo (Remove "id0") stage = Some si ∧
    demo (Remove "id1") si = Some sij ∧
    demo (Remove "id1") stage = Some sj ∧
    demo (Remove "id0") sj = Some sji ∧
    videos sij = videos sji ∧
    videoRefs sij = videoRefs sji.
Proof.
  split; [exact stage_consistent|].
  exact (remove_commutes uuid_of_nat blob_of_nat "id0" "id1" stage stage_consistent).
Defined.

Lemma reachable_states_are_consistent_witness :
  (Forall deliverable [DropFiles [clip_a; notes; clip_c]] ∧
   demo_run [DropFiles [clip_a; notes; clip_c]] mount = Some stage) ∧
  NoDup (id <$> videos stage) ∧
  fst <$> videoRefs stage = id <$> videos stage.
Proof.
  assert (Forall deliverable [DropFiles [clip_a; notes; clip_c]]) as Hd
    by (by repeat constructor).
  split; [split; [exact Hd|exact stage_reached]|].
  destruct (reachable_states_are_consistent uuid_of_nat blob_of_nat
              [DropFiles [clip_a; notes; clip_c]] stage
              uuid_of_nat_inj Hd stage_reached) as (Hnd & Hk & _).
  split; [exact Hnd|exact Hk].
Defined.

Lemma reachable_entries_are_bound_to_their_url_witness :
  (Forall deliverable [DropFiles [clip_a; notes; clip_c]] ∧
   demo_run [DropFiles [clip_a; notes; clip_c]] mount = Some stage ∧
   videos stage !! 1 = Some (mkVideo "id1" "blob:1")) ∧
  ∃ e el, videoRefs stage !! 1 = Some ("id1", e) ∧
          heap stage !! e = Some el ∧ src el = "blob:1".
Proof.
  assert (Forall deliverable [DropFiles [clip_a; notes; clip_c]]) as Hd
    by (by repeat constructor).
  split; [split_and!; [exact Hd|exact stage_reached|reflexivity]|].
  exact (reachable_entries_are_bound_to_their_url uuid_of_nat blob_of_nat
           [DropFiles [clip_a; notes; clip_c]] stage
           uuid_of_nat_inj Hd stage_reached 1 (mkVideo "id1" "blob:1") eq_refl).
Defined.

Lemma drop_keeps_existing_bindings_witness :
  (Forall deliverable [DropFiles [clip_a; notes; clip_c]] ∧
   demo_run [DropFiles [clip_a; notes; clip_c]] mount = Some stage) ∧
  ∃ st',
    demo (DropFiles [notes; clip_c]) stage = Some st' ∧
    videoRefs st' = [("id0", 0); ("id1", 1); ("id2", 2)] ∧
    length (heap st') = 3.
Proof.
  assert (Forall deliverable [DropFiles [clip_a; notes; clip_c]]) as Hd
    by (by repeat constructor).
  split; [split; [exact Hd|exact stage_reached]|].
  destruct (drop_keeps_existing_bindings uuid_of_nat blob_of_nat
              [DropFiles [clip_a; notes; clip_c]] stage [notes; clip_c]
              uuid_of_nat_inj Hd stage_reached)
    as (st' & news & Hfire & _).
  exists st'. split; [exact Hfire|].
  vm_compute in Hfire. by injection Hfire as <-.
Defined.

Lemma remove_unknown_id_revokes_every_url_witness :
  (consistent stage ∧ "id7" ∉ id <$> videos stage) ∧
  ∃ st',
    demo (Remove "id7") stage = Some st' ∧
    videos st' = videos stage ∧
    trace st' = [RevokeObjectURL "blob:0"; RevokeObjectURL "blob:1"].
Proof.
  assert ("id7" ∉ id <$> videos stage) as Hout by compute_done.
  split; [split; [exact stage_consistent|exact Hout]|].
  destruct (remove_unknown_id_revokes_every_url uuid_of_nat blob_of_nat
              "id7" stage stage_consistent Hout)
    as (st' & Hfire & Hvs & _ & Htr).
  exists st'. split_and!; [exact Hfire|exact Hvs|exact Htr].
Defined.

Lemma setVideoRef_keeps_one_binding_per_id_witness :
  (valid_volume (globalVolume stage) = true ∧ NoDup (fst <$> videoRefs stage)) ∧
  ∃ s1 s2,
    setVideoRef (Some 1) "id0" stage = Some s1 ∧
    videoRefs s1 = [("id0", 1); ("id1", 1)] ∧
    setVideoRef None "id0" s1 = Some s2 ∧
    videoRefs s2 = [("id1", 1)].
Proof.
  assert (NoDup (fst <$> videoRefs stage)) as Hnd by compute_done.
  split; [split; [reflexivity|exact Hnd]|].
  destruct (setVideoRef_keeps_one_binding_per_id 1 "id0" stage eq_refl Hnd)
    as (s1 & s2 & H1 & _ & _ & _ & H2 & Hrefs & _).
  exists s1, s2. split; [exact H1|].
  vm_compute in H1. injection H1 as <-. split; [reflexivity|].
  split; [exact H2|exact Hrefs].
Defined.

Lemma drag_highlight_follows_last_event_witness :
  ("bg-white/10" ∉ dropZone_classes) ∧
  drags [DragOver; DragOver; DragLeave; DragOver] (Some dropZone_classes)
  = Some (dropZone_classes ++ ["bg-white/10"]) ∧
  drags [DragOver; DropOnZone] (Some dropZone_classes) = Some dropZone_classes.
Proof.
  assert ("bg-white/10" ∉ dropZone_classes) as Hout by compute_done.
  split; [exact Hout|]. split.
  - exact (proj1 (drag_highlight_follows_last_event
                    [DragOver; DragOver; DragLeave; DragOver] dropZone_classes Hout)).
  - exact (proj1 (drag_highlight_follows_last_event
                    [DragOver; DropOnZone] dropZone_classes Hout)).
Defined.
